(** * Word-to-subtoken alignment and cluster padding of [CorefDataset]

    A shallow embedding of [src/data.py]: the corpus parser
    ([_parse_jsonlines]), the aligner ([_tokenize]) and the cluster padder
    ([pad_clusters]), together with the properties the specification states
    about them.

    Python integers are [Z], Python lists are [list], the two word-index
    dictionaries of the aligner are [gmap Z Z], and a raised exception is the
    left injection of a sum. *)

From stdpp Require Import gmap strings list fin_maps.
From Stdlib Require Import ZArith Lia.

(** ** Exceptions *)

(** The exceptions the modelled code can raise: a dictionary lookup of an
    absent key, the unpacking [for start, end in cluster] of a mention that
    is not of length two, and whatever the JSON decoding of a line raises. *)
Inductive exn : Type :=
| KeyError (key : Z)
| ValueError
| DecodeError (line : string).

Definition result (A : Type) : Type := (exn + A)%type.

Definition ret {A : Type} (a : A) : result A := inr a.
Definition raise {A : Type} (e : exn) : result A := inl e.

Definition bind {A B : Type} (m : result A) (k : A → result B) : result B :=
  match m with
  | inl e => inl e
  | inr a => k a
  end.

Notation "'do' x <- m 'in' k" := (bind m (λ x, k))
  (at level 10, x pattern, m at level 100, k at level 200).

(** A comprehension [[f(x) for x in l]] whose body may raise: elements are
    evaluated from left to right and the first exception aborts. *)
Fixpoint result_map {A B : Type} (f : A → result B) (l : list A) : result (list B) :=
  match l with
  | [] => ret []
  | x :: l' => do y <- f x in do ys <- result_map f l' in ret (y :: ys)
  end.

(** A [for] loop over [l] updating an accumulator, whose body may raise. *)
Fixpoint result_fold {A B : Type} (f : A → B → result A) (l : list B) (a : A) : result A :=
  match l with
  | [] => ret a
  | x :: l' => do a' <- f a x in result_fold f l' a'
  end.

(** ** Python primitives *)

(** [len(l)] *)
Definition len {A : Type} (l : list A) : Z := Z.of_nat (length l).

(** [l * n]: the list repeated [n] times, empty when [n <= 0]. *)
Definition list_mul {A : Type} (l : list A) (n : Z) : list A :=
  concat (replicate (Z.to_nat n) l).

(** [max(xs)] over a non-empty sequence, given as head and tail. *)
Definition py_max (x : Z) (xs : list Z) : Z := fold_left Z.max xs x.

(** [enumerate(l)], counting from [n]. *)
Fixpoint enumerate_from {A : Type} (n : nat) (l : list A) : list (nat * A) :=
  match l with
  | [] => []
  | x :: l' => (n, x) :: enumerate_from (S n) l'
  end.

Definition enumerate {A : Type} (l : list A) : list (nat * A) := enumerate_from 0 l.

(** [d[k]] on a dictionary with integer keys: [KeyError] when absent (a
    negative key is just another absent key, there is no wrap-around). *)
Definition dict_get (d : gmap Z Z) (k : Z) : result Z :=
  match d !! k with
  | Some v => ret v
  | None => raise (KeyError k)
  end.

(** Modelled from the spec: [utils.flatten_list_of_lists], imported by
    [data.py] but not part of the sources; the specification describes it as
    the order-preserving concatenation of the inner sequences. *)
Definition flatten_list_of_lists {A : Type} (lst : list (list A)) : list A :=
  concat lst.

(** ** Data model *)

(** A mention as it is read from the corpus: a JSON array of integers. The
    aligner unpacks it as [start, end]. *)
Definition mention : Type := list Z.

(** One decoded line of the corpus: the fields [d["doc_key"]],
    [d["sentences"]] and [d["clusters"]]. *)
Record record : Type := mk_record {
  r_doc_key : string;
  r_sentences : list (list string);
  r_clusters : list (list mention)
}.

(** A parsed example, the tuple [(doc_key, input_words, clusters)]. *)
Definition example : Type := (string * list string * list (list mention))%type.

(** [CorefExample = namedtuple("CorefExample", ["token_ids", "clusters"])] *)
Record CorefExample : Type := mk_CorefExample {
  token_ids : list string;
  clusters : list (list (Z * Z))
}.

(** An element of [coref_examples]:
    [((doc_key, end_token_idx_to_word_idx), CorefExample(...))]. *)
Definition tokenized_example : Type := ((string * list Z) * CorefExample)%type.

(** The local variables of the word loop of [_tokenize]. *)
Record word_scan : Type := mk_word_scan {
  word_idx_to_start_token_idx : gmap Z Z;
  word_idx_to_end_token_idx : gmap Z Z;
  end_token_idx_to_word_idx : list Z;
  scan_token_ids : list string
}.

(** The attributes of a [CorefDataset] object (the tokenizer apart). *)
Record CorefDataset : Type := mk_CorefDataset {
  max_mention_num : Z;
  max_cluster_size : Z;
  max_num_clusters : Z;
  max_seq_length : Z;
  examples : list tokenized_example;
  lengths : list Z;
  num_examples_filtered : Z
}.

(** ** The program *)

Section Dataset.

(** [self.tokenizer.tokenize]: a word to its subtoken strings. *)
Variable tokenize : string → list string.

(** [json.loads(line.strip())] followed by the three field reads. *)
Variable load_record : string → result record.

(** [consts.NULL_ID_FOR_COREF] *)
Variable NULL_ID_FOR_COREF : Z.

(** *** [_parse_jsonlines] *)

(** The body of [for line in f]. *)
Definition parse_line (acc : list example * Z * Z * Z) (line : string)
  : result (list example * Z * Z * Z) :=
  let '(examples, max_mention_num, max_cluster_size, max_num_clusters) := acc in
  do d <- load_record line in
  let doc_key := r_doc_key d in
  let input_words := flatten_list_of_lists (r_sentences d) in
  let clusters := r_clusters d in
  let max_mention_num :=
    Z.max max_mention_num (len (flatten_list_of_lists clusters)) in
  let max_cluster_size :=
    Z.max max_cluster_size
      (match clusters with
       | cluster :: rest => py_max (len cluster) (map len rest)
       | [] => 0
       end) in
  let max_num_clusters :=
    Z.max max_num_clusters
      (match clusters with
       | _ :: _ => len clusters
       | [] => 0
       end) in
  ret (examples ++ [(doc_key, input_words, clusters)],
       max_mention_num, max_cluster_size, max_num_clusters).

Definition _parse_jsonlines (file : list string)
  : result (list example * Z * Z * Z) :=
  result_fold parse_line file ([], -1, -1, -1)%Z.

(** *** [_tokenize] *)

Definition scan_init : word_scan :=
  {| word_idx_to_start_token_idx := ∅;
     word_idx_to_end_token_idx := ∅;
     end_token_idx_to_word_idx := [0%Z];
     scan_token_ids := [] |}.

(** The body of [for idx, word in enumerate(words)]. *)
Definition scan_word (st : word_scan) (iw : nat * string) : word_scan :=
  let '(idx, word) := iw in
  let starts :=
    <[Z.of_nat idx := (len (scan_token_ids st) + 1)%Z]>
      (word_idx_to_start_token_idx st) in
  let tokenized := tokenize word in
  let owners :=
    Nat.iter (length tokenized) (λ l, l ++ [Z.of_nat idx])
      (end_token_idx_to_word_idx st) in
  let token_ids := scan_token_ids st ++ tokenized in
  let ends :=
    <[Z.of_nat idx := len token_ids]> (word_idx_to_end_token_idx st) in
  {| word_idx_to_start_token_idx := starts;
     word_idx_to_end_token_idx := ends;
     end_token_idx_to_word_idx := owners;
     scan_token_ids := token_ids |}.

Definition scan_words (words : list string) : word_scan :=
  fold_left scan_word (enumerate words) scan_init.

(** [(word_idx_to_start_token_idx[start], word_idx_to_end_token_idx[end - 1])]
    under [for start, end in cluster]. *)
Definition remap_mention (st : word_scan) (m : mention) : result (Z * Z) :=
  match m with
  | [start; end_] =>
      do s <- dict_get (word_idx_to_start_token_idx st) start in
      do e <- dict_get (word_idx_to_end_token_idx st) (end_ - 1)%Z in
      ret (s, e)
  | _ => raise ValueError
  end.

Definition remap_clusters (st : word_scan) (cls : list (list mention))
  : result (list (list (Z * Z))) :=
  result_map (result_map (remap_mention st)) cls.

(** The test [0 < self.max_seq_length < len(token_ids)]. *)
Definition too_long (max_seq_length : Z) (st : word_scan) : bool :=
  (0 <? max_seq_length)%Z && (max_seq_length <? len (scan_token_ids st))%Z.

(** The body of [for doc_key, words, clusters in examples]. *)
Definition tokenize_example (max_seq_length : Z)
    (acc : list tokenized_example * list Z * Z) (ex : example)
  : result (list tokenized_example * list Z * Z) :=
  let '(coref_examples, lengths, num_examples_filtered) := acc in
  let '(doc_key, words, cls) := ex in
  let st := scan_words words in
  if too_long max_seq_length st then
    ret (coref_examples, lengths, (num_examples_filtered + 1)%Z)
  else
    do new_clusters <- remap_clusters st cls in
    ret (coref_examples ++
           [((doc_key, end_token_idx_to_word_idx st),
             {| token_ids := scan_token_ids st; clusters := new_clusters |})],
         lengths ++ [len (scan_token_ids st)],
         num_examples_filtered).

Definition _tokenize (max_seq_length : Z) (exs : list example)
  : result (list tokenized_example * list Z * Z) :=
  result_fold (tokenize_example max_seq_length) exs ([], [], 0%Z).

(** *** [__init__] *)

Definition __init__ (file : list string) (max_seq_length : Z)
  : result CorefDataset :=
  do (exs, max_mention_num, max_cluster_size, max_num_clusters)
    <- _parse_jsonlines file in
  do (coref_examples, lengths, num_examples_filtered)
    <- _tokenize max_seq_length exs in
  ret {| max_mention_num := max_mention_num;
         max_cluster_size := max_cluster_size;
         max_num_clusters := max_num_clusters;
         max_seq_length := max_seq_length;
         examples := coref_examples;
         lengths := lengths;
         num_examples_filtered := num_examples_filtered |}.

(** *** Cluster padding *)

Definition pad_clusters_inside (self : CorefDataset) (cls : list (list (Z * Z)))
  : list (list (Z * Z)) :=
  map (λ cluster,
         cluster ++
           list_mul [(NULL_ID_FOR_COREF, NULL_ID_FOR_COREF)]
             (max_cluster_size self - len cluster))
      cls.

Definition pad_clusters_outside (self : CorefDataset) (cls : list (list (Z * Z)))
  : list (list (Z * Z)) :=
  cls ++ list_mul [[]] (max_num_clusters self - len cls).

Definition pad_clusters (self : CorefDataset) (cls : list (list (Z * Z)))
  : list (list (Z * Z)) :=
  let cls := pad_clusters_outside self cls in
  let cls := pad_clusters_inside self cls in
  cls.

End Dataset.

(** ** Auxiliary definitions used to state the properties *)

Section Bookkeeping.

Variable tokenize : string → list string.

(** The word loop started at word index [n] in state [st]. *)
Definition scan_from (n : nat) (words : list string) (st : word_scan) : word_scan :=
  fold_left (scan_word tokenize) (enumerate_from n words) st.

(** The number of subtokens emitted by the first [k] words. *)
Definition emitted (words : list string) (k : nat) : Z :=
  len (concat (map tokenize (take k words))).

(** The word index owning each emitted subtoken, for words numbered from
    [n]. *)
Fixpoint owners (n : nat) (words : list string) : list Z :=
  match words with
  | [] => []
  | w :: words' =>
      replicate (length (tokenize w)) (Z.of_nat n) ++ owners (S n) words'
  end.

End Bookkeeping.

(** ** Notions used to state the properties of the aligner *)

(** The result is a [KeyError]. *)
Definition is_KeyError {A : Type} (r : result A) : Prop :=
  ∃ k, r = inl (KeyError k).

(** A mention that unpacks as [start, end]. *)
Definition is_pair (m : mention) : Prop := length m = 2.

(** A pair mention one of whose two word indices, [start] and [end - 1],
    lies outside [0, word_count). *)
Definition out_of_range (word_count : Z) (m : mention) : Prop :=
  match m with
  | [start; end_] =>
      ¬ (0 ≤ start < word_count)%Z ∨ ¬ (0 ≤ end_ - 1 < word_count)%Z
  | _ => False
  end.

(** The remapped mention read off the two recorded dictionaries. *)
Definition remapped (st : word_scan) (m : mention) : Z * Z :=
  match m with
  | [start; end_] =>
      (default 0%Z (word_idx_to_start_token_idx st !! start),
       default 0%Z (word_idx_to_end_token_idx st !! (end_ - 1)%Z))
  | _ => (0%Z, 0%Z)
  end.

Section Survivors.

Variable tokenize : string → list string.

(** The total subtoken count of a parsed example. *)
Definition subtoken_count (ex : example) : Z :=
  len (concat (map tokenize (ex.1.2))).

(** The document exceeds a positive maximum sequence length. *)
Definition exceeds (max_seq_length : Z) (ex : example) : bool :=
  (0 <? max_seq_length)%Z && (max_seq_length <? subtoken_count ex)%Z.

(** The tokenized example of a document that is kept. *)
Definition aligned (ex : example) : result tokenized_example :=
  let '(doc_key, words, cls) := ex in
  let st := scan_words tokenize words in
  do new_clusters <- remap_clusters st cls in
  ret ((doc_key, end_token_idx_to_word_idx st),
       {| token_ids := scan_token_ids st; clusters := new_clusters |}).

End Survivors.

(** ** Notions used to state the properties of the parser *)

(** [m] is the maximum of the candidates [xs], and [-1] when there are
    none. *)
Definition is_max_of (m : Z) (xs : list Z) : Prop :=
  match xs with
  | [] => m = (-1)%Z
  | _ :: _ => m ∈ xs ∧ ∀ x, x ∈ xs → (x ≤ m)%Z
  end.

(** The total number of mentions of a document, summed over its clusters. *)
Definition mention_count (d : record) : Z :=
  fold_right Z.add 0%Z (map len (r_clusters d)).

(** The mention counts of the clusters of a document; a document without
    clusters contributes the single candidate 0. *)
Definition cluster_sizes (d : record) : list Z :=
  match r_clusters d with
  | [] => [0%Z]
  | cls => map len cls
  end.

Definition cluster_count (d : record) : Z := len (r_clusters d).

Definition example_of (d : record) : example :=
  (r_doc_key d, concat (r_sentences d), r_clusters d).

(** ** The aligner over a tokenizer with internal state

    The same code, with the tokenizer as an object whose [tokenize] method
    may read and update a state of its own. *)

Module Stateful.
Section Stateful.

Variable T : Type.
Variable tokenize : T → string → list string * T.
Variable load_record : string → result record.

Definition scan_word (st : word_scan * T) (iw : nat * string) : word_scan * T :=
  let '(sc, t) := st in
  let '(idx, word) := iw in
  let starts :=
    <[Z.of_nat idx := (len (scan_token_ids sc) + 1)%Z]>
      (word_idx_to_start_token_idx sc) in
  let '(tokenized, t) := tokenize t word in
  let owners :=
    Nat.iter (length tokenized) (λ l, l ++ [Z.of_nat idx])
      (end_token_idx_to_word_idx sc) in
  let token_ids := scan_token_ids sc ++ tokenized in
  let ends :=
    <[Z.of_nat idx := len token_ids]> (word_idx_to_end_token_idx sc) in
  ({| word_idx_to_start_token_idx := starts;
      word_idx_to_end_token_idx := ends;
      end_token_idx_to_word_idx := owners;
      scan_token_ids := token_ids |}, t).

Definition scan_words (words : list string) (t : T) : word_scan * T :=
  fold_left scan_word (enumerate words) (scan_init, t).

Definition tokenize_example (max_seq_length : Z)
    (acc : list tokenized_example * list Z * Z * T) (ex : example)
  : result (list tokenized_example * list Z * Z * T) :=
  let '(coref_examples, lengths, num_examples_filtered, t) := acc in
  let '(doc_key, words, cls) := ex in
  let '(st, t) := scan_words words t in
  if too_long max_seq_length st then
    ret (coref_examples, lengths, (num_examples_filtered + 1)%Z, t)
  else
    do new_clusters <- remap_clusters st cls in
    ret (coref_examples ++
           [((doc_key, end_token_idx_to_word_idx st),
             {| token_ids := scan_token_ids st; clusters := new_clusters |})],
         lengths ++ [len (scan_token_ids st)],
         num_examples_filtered, t).

Definition _tokenize (max_seq_length : Z) (exs : list example) (t : T)
  : result (list tokenized_example * list Z * Z * T) :=
  result_fold (tokenize_example max_seq_length) exs ([], [], 0%Z, t).

(** One run of the parser and the aligner, from tokenizer state [t]: the
    dataset built, or the exception raised. *)
Definition run (file : list string) (max_seq_length : Z) (t : T)
  : result CorefDataset :=
  do (exs, max_mention_num, max_cluster_size, max_num_clusters)
    <- _parse_jsonlines load_record file in
  do (coref_examples, lengths, num_examples_filtered, _)
    <- _tokenize max_seq_length exs t in
  ret {| max_mention_num := max_mention_num;
         max_cluster_size := max_cluster_size;
         max_num_clusters := max_num_clusters;
         max_seq_length := max_seq_length;
         examples := coref_examples;
         lengths := lengths;
         num_examples_filtered := num_examples_filtered |}.

(** The tokenizer is deterministic: what [tokenize] returns for a word
    does not depend on its state. *)
Definition deterministic : Prop :=
  ∀ (t1 t2 : T) (word : string), (tokenize t1 word).1 = (tokenize t2 word).1.

(** The function from words to subtokens that the tokenizer computes in
    state [t0]. *)
Definition tokenize_fn (t0 : T) (word : string) : list string :=
  (tokenize t0 word).1.

(** A result without the final tokenizer state. *)
Definition forget {A : Type} (r : result (A * T)) : result A :=
  match r with
  | inl e => inl e
  | inr (a, _) => inr a
  end.

End Stateful.

Arguments scan_word {T} tokenize st iw.
Arguments scan_words {T} tokenize words t.
Arguments tokenize_example {T} tokenize max_seq_length acc ex.
Arguments _tokenize {T} tokenize max_seq_length exs t.
Arguments run {T} tokenize load_record file max_seq_length t.
Arguments deterministic {T} tokenize.
Arguments tokenize_fn {T} tokenize t0 word.
Arguments forget {T A} r.

End Stateful.

(** ** Concrete inputs *)

Module Sample.

(** A tokenizer that maps every word to one subtoken. *)
Definition whole_word (word : string) : list string := [word].

(** A tokenizer that drops the empty word and splits off a final [s]. *)
Definition plural_split (word : string) : list string :=
  if decide (word = "") then []
  else if decide (word = "guys") then ["guy"; "s"]
  else [word].

(** A tokenizer that counts its calls; the count does not influence the
    subtokens. *)
Definition counting (calls : nat) (word : string) : list string * nat :=
  (plural_split word, S calls).

Definition words : list string :=
  ["John"; "Smith"; "is"; "a"; "nice"; "guy"; "."; "He"; "lives"; "in";
   "London"; "."].

Definition doc : record :=
  {| r_doc_key := "nw/0";
     r_sentences :=
       [["John"; "Smith"; "is"; "a"; "nice"; "guy"; "."];
        ["He"; "lives"; "in"; "London"; "."]];
     r_clusters := [[[0; 2]; [7; 8]]]%Z |}.

Definition doc_no_clusters : record :=
  {| r_doc_key := "nw/1"; r_sentences := [["Hello"; "guys"; ""; "."]];
     r_clusters := [] |}.

(** A document whose second mention ends past the last word. *)
Definition doc_bad_span : record :=
  {| r_doc_key := "nw/2"; r_sentences := [["Hello"; "guys"; "."]];
     r_clusters := [[[0; 1]]; [[1; 2]; [2; 7]]]%Z |}.

(** A decoder for a corpus whose lines are named by keys. *)
Definition load (line : string) : result record :=
  if decide (line = "line 0") then ret doc
  else if decide (line = "line 1") then ret doc_no_clusters
  else if decide (line = "line 2") then ret doc_bad_span
  else raise (DecodeError line).

(** The dataset built from the first two lines with [plural_split]. *)
Definition built : CorefDataset :=
  {| max_mention_num := 2; max_cluster_size := 2; max_num_clusters := 1;
     max_seq_length := (-1);
     examples :=
       [(("nw/0", [0; 0; 1; 2; 3; 4; 5; 6; 7; 8; 9; 10; 11]%Z),
         {| token_ids := words; clusters := [[(1, 2); (8, 8)]]%Z |});
        (("nw/1", [0; 0; 1; 1; 3]%Z),
         {| token_ids := ["Hello"; "guy"; "s"; "."]; clusters := [] |})];
     lengths := [12; 4]%Z;
     num_examples_filtered := 0 |}.

(** Clusters of another document: three clusters, the first of three
    mentions. *)
Definition large_clusters : list (list (Z * Z)) :=
  [[(1, 2); (8, 8); (11, 11)]; [(4, 4)]; [(5, 6); (9, 9)]]%Z.

End Sample.

(** ** Indexing the dataset *)

(** [l[i]] for an integer [i]: a negative index counts from the end of the
    list, and [None] stands for the [IndexError] of an index out of range. *)
Definition list_getitem {A : Type} (l : list A) (i : Z) : option A :=
  if decide (0 ≤ i < len l)%Z then l !! Z.to_nat i
  else if decide (- len l ≤ i < 0)%Z then l !! Z.to_nat (i + len l)
  else None.

Definition __len__ (self : CorefDataset) : Z := len (examples self).

Definition __getitem__ (self : CorefDataset) (item : Z) : option tokenized_example :=
  list_getitem (examples self) item.

(** The candidate a document offers to [max_cluster_size]:
    [max(len(cluster) for cluster in clusters) if clusters else 0]. *)
Definition doc_cluster_max (d : record) : Z :=
  match r_clusters d with
  | cluster :: rest => py_max (len cluster) (map len rest)
  | [] => 0%Z
  end.

(** ** The dataset cache

    [get_dataset] over a file system threaded through the call. The
    operating system and [pickle] are outside the program; the four
    operations the function performs on files are parameters. *)

Module Cache.

(** The attributes of [args] that [get_dataset] reads. *)
Record args : Type := mk_args {
  predict_file : string;
  predict_file_cache : string;
  train_file : string;
  train_file_cache : string;
  max_seq_length : Z
}.

(** What a call can raise: an exception of the parser or the aligner, or a
    failure of a file operation or of [pickle] on the file at [path]. *)
Inductive failure : Type :=
| Raised (e : exn)
| OSError (path : string)
| PickleError (path : string).

Section Cache.

Variable tokenize : string → list string.
Variable load_record : string → result record.

(** The file system. *)
Variable FS : Type.

(** [os.path.exists(path)] *)
Variable path_exists : FS → string → bool.

(** [open(path, 'r')] and the iteration over the lines of the file. *)
Variable read_lines : FS → string → failure + list string.

(** [open(path, 'rb')] and [pickle.load]. *)
Variable pickle_load : FS → string → failure + CorefDataset.

(** [open(path, 'wb')] and [pickle.dump]: the file system afterwards, and
    the failure if there is one. *)
Variable pickle_dump : FS → string → CorefDataset → FS * option failure.

Definition get_dataset (a : args) (evaluate : bool) (fs : FS)
  : (failure + CorefDataset) * FS :=
  let '(read_from_cache, file_path) :=
    if evaluate && path_exists fs (predict_file_cache a)
    then (true, predict_file_cache a)
    else if negb evaluate && path_exists fs (train_file_cache a)
    then (true, train_file_cache a)
    else (false, "") in
  if read_from_cache then (pickle_load fs file_path, fs)
  else
    let '(file_path, cache_path) :=
      if evaluate then (predict_file a, predict_file_cache a)
      else (train_file a, train_file_cache a) in
    match read_lines fs file_path with
    | inl e => (inl e, fs)
    | inr file =>
        match __init__ tokenize load_record file (max_seq_length a) with
        | inl e => (inl (Raised e), fs)
        | inr coref_dataset =>
            let '(fs, failed) := pickle_dump fs cache_path coref_dataset in
            match failed with
            | Some e => (inl e, fs)
            | None => (inr coref_dataset, fs)
            end
        end
    end.

(** The cache path a call uses. *)
Definition cache_path (a : args) (evaluate : bool) : string :=
  if evaluate then predict_file_cache a else train_file_cache a.

(** The corpus path a call uses when it builds the dataset. *)
Definition corpus_path (a : args) (evaluate : bool) : string :=
  if evaluate then predict_file a else train_file a.

(** What is assumed of [pickle]: after a dump that succeeds the file exists
    and loads back as the object dumped. *)
Definition dump_then_load : Prop :=
  ∀ fs path obj fs',
    pickle_dump fs path obj = (fs', None) →
    path_exists fs' path = true ∧ pickle_load fs' path = inr obj.

End Cache.

Arguments get_dataset tokenize load_record {FS} path_exists read_lines
  pickle_load pickle_dump a evaluate fs.
Arguments dump_then_load {FS} path_exists pickle_load pickle_dump.

End Cache.

(** A file system in memory: a file holds the lines of a text or a pickled
    dataset. *)
Module MemoryFS.

Definition content : Type := (list string + CorefDataset)%type.

Definition path_exists (fs : gmap string content) (path : string) : bool :=
  bool_decide (is_Some (fs !! path)).

Definition read_lines (fs : gmap string content) (path : string)
  : Cache.failure + list string :=
  match fs !! path with
  | Some (inl file) => inr file
  | _ => inl (Cache.OSError path)
  end.

Definition pickle_load (fs : gmap string content) (path : string)
  : Cache.failure + CorefDataset :=
  match fs !! path with
  | Some (inr obj) => inr obj
  | Some (inl _) => inl (Cache.PickleError path)
  | None => inl (Cache.OSError path)
  end.

Definition pickle_dump (fs : gmap string content) (path : string)
    (obj : CorefDataset) : gmap string content * option Cache.failure :=
  (<[path := inr obj]> fs, None).

Definition args : Cache.args :=
  {| Cache.predict_file := "dev.jsonlines";
     Cache.predict_file_cache := "dev.cache";
     Cache.train_file := "train.jsonlines";
     Cache.train_file_cache := "train.cache";
     Cache.max_seq_length := (-1) |}.

(** A disk with the training corpus and no cache. *)
Definition disk : gmap string content :=
  {[ "train.jsonlines" := inl ["line 0"; "line 1"] ]}.


End MemoryFS.

(** ** Properties of the word loop *)

Section WordLoop.

Variable tokenize : string → list string.

Lemma len_app {A : Type} (l k : list A) : len (l ++ k) = (len l + len k)%Z.
Proof. unfold len. rewrite length_app. lia. Qed.

Lemma len_nonneg {A : Type} (l : list A) : (0 ≤ len l)%Z.
Proof. unfold len. lia. Qed.

Lemma iter_snoc_replicate {A : Type} (n : nat) (x : A) (l : list A) :
  Nat.iter n (λ l, l ++ [x]) l = l ++ replicate n x.
Proof.
  induction n as [|n IH]; simpl.
  - by rewrite app_nil_r.
  - rewrite IH, <- app_assoc. f_equal. symmetry. apply replicate_cons_app.
Qed.

Lemma scan_from_cons n w words st :
  scan_from tokenize n (w :: words) st
  = scan_from tokenize (S n) words (scan_word tokenize st (n, w)).
Proof. reflexivity. Qed.

Lemma emitted_0 words : emitted tokenize words 0 = 0%Z.
Proof. reflexivity. Qed.

Lemma emitted_cons w words k :
  emitted tokenize (w :: words) (S k)
  = (len (tokenize w) + emitted tokenize words k)%Z.
Proof. unfold emitted. simpl. apply len_app. Qed.

Lemma emitted_step words k w :
  words !! k = Some w →
  emitted tokenize words (S k)
  = (emitted tokenize words k + len (tokenize w))%Z.
Proof.
  intros Hw. unfold emitted.
  rewrite (take_S_r _ _ _ Hw), map_app, concat_app, len_app.
  simpl. by rewrite app_nil_r.
Qed.

(** The subtokens accumulate in word order. *)
Lemma scan_from_token_ids words : ∀ n st,
  scan_token_ids (scan_from tokenize n words st)
  = scan_token_ids st ++ concat (map tokenize words).
Proof.
  induction words as [|w words IH]; intros n st.
  - simpl. by rewrite app_nil_r.
  - rewrite scan_from_cons, IH. simpl. by rewrite <- app_assoc.
Qed.

Lemma scan_from_owners words : ∀ n st,
  end_token_idx_to_word_idx (scan_from tokenize n words st)
  = end_token_idx_to_word_idx st ++ owners tokenize n words.
Proof.
  induction words as [|w words IH]; intros n st.
  - simpl. by rewrite app_nil_r.
  - rewrite scan_from_cons, IH. simpl.
    by rewrite iter_snoc_replicate, <- app_assoc.
Qed.

(** Keys outside the scanned index range keep their entry. *)
Lemma scan_from_start_other words : ∀ n st (k : Z),
  (k < Z.of_nat n ∨ Z.of_nat (n + length words) ≤ k)%Z →
  word_idx_to_start_token_idx (scan_from tokenize n words st) !! k
  = word_idx_to_start_token_idx st !! k.
Proof.
  induction words as [|w words IH]; intros n st k Hk; [done|].
  rewrite scan_from_cons, IH by (simpl in Hk; lia).
  simpl. apply lookup_insert_ne. simpl in Hk. lia.
Qed.

Lemma scan_from_end_other words : ∀ n st (k : Z),
  (k < Z.of_nat n ∨ Z.of_nat (n + length words) ≤ k)%Z →
  word_idx_to_end_token_idx (scan_from tokenize n words st) !! k
  = word_idx_to_end_token_idx st !! k.
Proof.
  induction words as [|w words IH]; intros n st k Hk; [done|].
  rewrite scan_from_cons, IH by (simpl in Hk; lia).
  simpl. apply lookup_insert_ne. simpl in Hk. lia.
Qed.

Lemma scan_from_start_at words : ∀ n st i,
  i < length words →
  word_idx_to_start_token_idx (scan_from tokenize n words st) !! Z.of_nat (n + i)
  = Some (len (scan_token_ids st) + emitted tokenize words i + 1)%Z.
Proof.
  induction words as [|w words IH]; intros n st i Hi; [simpl in Hi; lia|].
  rewrite scan_from_cons. destruct i as [|i].
  - rewrite scan_from_start_other by lia. simpl.
    rewrite Nat.add_0_r, lookup_insert_eq, emitted_0. f_equal. lia.
  - replace (n + S i) with (S n + i) by lia.
    rewrite IH by (simpl in Hi; lia).
    rewrite emitted_cons. simpl. rewrite len_app. f_equal. lia.
Qed.

Lemma scan_from_end_at words : ∀ n st i,
  i < length words →
  word_idx_to_end_token_idx (scan_from tokenize n words st) !! Z.of_nat (n + i)
  = Some (len (scan_token_ids st) + emitted tokenize words (S i))%Z.
Proof.
  induction words as [|w words IH]; intros n st i Hi; [simpl in Hi; lia|].
  rewrite scan_from_cons. destruct i as [|i].
  - rewrite scan_from_end_other by lia. simpl.
    rewrite Nat.add_0_r, lookup_insert_eq, emitted_cons, emitted_0, len_app.
    f_equal. lia.
  - replace (n + S i) with (S n + i) by lia.
    rewrite IH by (simpl in Hi; lia).
    rewrite (emitted_cons w words (S i)). simpl. rewrite len_app. f_equal. lia.
Qed.

Lemma enumerate_from_app {A : Type} (l k : list A) : ∀ n,
  enumerate_from n (l ++ k)
  = enumerate_from n l ++ enumerate_from (n + length l) k.
Proof.
  induction l as [|x l IH]; intros n; simpl.
  - by rewrite Nat.add_0_r.
  - rewrite IH. do 3 f_equal. lia.
Qed.

(** The loop over [l ++ k] is the loop over [l] followed by the loop over
    [k]. *)
Lemma scan_from_app l k n st :
  scan_from tokenize n (l ++ k) st
  = scan_from tokenize (n + length l) k (scan_from tokenize n l st).
Proof. unfold scan_from. by rewrite enumerate_from_app, fold_left_app. Qed.

(** The state in which the loop reaches word [idx], and the one in which
    it leaves it. *)
Lemma scan_words_through words idx word :
  words !! idx = Some word →
  scan_words tokenize words
  = scan_from tokenize (S idx) (drop (S idx) words)
      (scan_word tokenize (scan_words tokenize (take idx words)) (idx, word)).
Proof.
  intros Hw. unfold scan_words, enumerate. fold (scan_from tokenize 0 words scan_init).
  rewrite <- (take_drop idx words) at 1.
  rewrite scan_from_app, (drop_S _ _ _ Hw), scan_from_cons.
  apply lookup_lt_Some in Hw.
  rewrite length_take, Nat.min_l by lia. reflexivity.
Qed.

Lemma scan_words_token_ids words :
  scan_token_ids (scan_words tokenize words) = concat (map tokenize words).
Proof. apply (scan_from_token_ids words 0 scan_init). Qed.

Lemma scan_words_prefix_len words k :
  len (scan_token_ids (scan_words tokenize (take k words))) = emitted tokenize words k.
Proof. by rewrite scan_words_token_ids. Qed.

Lemma scan_words_owners words :
  end_token_idx_to_word_idx (scan_words tokenize words)
  = 0%Z :: owners tokenize 0 words.
Proof. apply (scan_from_owners words 0 scan_init). Qed.

Lemma scan_words_start words i :
  i < length words →
  word_idx_to_start_token_idx (scan_words tokenize words) !! Z.of_nat i
  = Some (emitted tokenize words i + 1)%Z.
Proof.
  intros Hi. pose proof (scan_from_start_at words 0 scan_init i Hi) as H.
  simpl in H. exact H.
Qed.

Lemma scan_words_end words i :
  i < length words →
  word_idx_to_end_token_idx (scan_words tokenize words) !! Z.of_nat i
  = Some (emitted tokenize words (S i)).
Proof.
  intros Hi. pose proof (scan_from_end_at words 0 scan_init i Hi) as H.
  simpl in H. exact H.
Qed.

Lemma scan_words_start_None words (k : Z) :
  (k < 0 ∨ len words ≤ k)%Z →
  word_idx_to_start_token_idx (scan_words tokenize words) !! k = None.
Proof.
  intros Hk. unfold scan_words, enumerate.
  fold (scan_from tokenize 0 words scan_init).
  rewrite scan_from_start_other by (unfold len in Hk; simpl; lia).
  apply lookup_empty.
Qed.

Lemma scan_words_end_None words (k : Z) :
  (k < 0 ∨ len words ≤ k)%Z →
  word_idx_to_end_token_idx (scan_words tokenize words) !! k = None.
Proof.
  intros Hk. unfold scan_words, enumerate.
  fold (scan_from tokenize 0 words scan_init).
  rewrite scan_from_end_other by (unfold len in Hk; simpl; lia).
  apply lookup_empty.
Qed.

(** Position [q] of the owner list names word [k] exactly when [q] lies in
    the run of subtokens emitted for [k]. *)
Lemma owners_lookup words : ∀ n (q : nat) (k : Z),
  owners tokenize n words !! q = Some k ↔
  ∃ i, i < length words ∧ k = Z.of_nat (n + i) ∧
       (emitted tokenize words i ≤ Z.of_nat q < emitted tokenize words (S i))%Z.
Proof.
  induction words as [|w words IH]; intros n q k.
  - simpl. split; [done|]. intros (i & Hi & _). simpl in Hi. lia.
  - simpl. destruct (decide (q < length (tokenize w))) as [Hq|Hq].
    + rewrite lookup_app_l by (by rewrite length_replicate).
      rewrite lookup_replicate. split.
      * intros [-> _]. exists 0. rewrite Nat.add_0_r, emitted_0, emitted_cons, emitted_0.
        unfold len. simpl. split; [lia|split; [done|lia]].
      * intros (i & Hi & -> & Hlo & Hhi). destruct i as [|i].
        -- by rewrite Nat.add_0_r.
        -- rewrite emitted_cons in Hlo. unfold len in Hlo.
           pose proof (len_nonneg (concat (map tokenize (take i words)))) as Hnn.
           unfold emitted in Hlo. lia.
    + rewrite lookup_app_r by (rewrite length_replicate; lia).
      rewrite length_replicate, IH. split.
      * intros (i & Hi & -> & Hlo & Hhi). exists (S i).
        rewrite !emitted_cons. unfold len. simpl.
        split; [lia|split; [f_equal; lia|lia]].
      * intros (i & Hi & -> & Hlo & Hhi). destruct i as [|i].
        -- rewrite emitted_cons, emitted_0 in Hhi. unfold len in Hhi. lia.
        -- exists i. rewrite !emitted_cons in *. unfold len in *. simpl in Hi.
           split; [lia|split; [f_equal; lia|lia]].
Qed.

(** The slice of the subtoken list between two emission counts is what the
    word in between expands to. *)
Lemma token_ids_slice words idx word :
  words !! idx = Some word →
  take (length (tokenize word))
    (drop (Z.to_nat (emitted tokenize words idx)) (concat (map tokenize words)))
  = tokenize word.
Proof.
  intros Hw. rewrite <- (take_drop_middle _ _ _ Hw) at 2.
  rewrite map_app, concat_app. simpl.
  unfold emitted, len. rewrite Nat2Z.id.
  rewrite drop_app_length. by rewrite take_app_length.
Qed.

End WordLoop.

(** ** Properties of the aligner *)

Section Aligner.

Variable tokenize : string → list string.

(** C1. Scanning the words of a document in order, the loop reaches word
    [idx] in the state [before] and leaves it in the state [after]. The
    first-subtoken index recorded for [idx] is the number of subtokens
    emitted in [before] plus one, the last-subtoken index recorded is the
    number emitted in [after]; the subtokens of the document at the
    positions [first .. last], counted with the start token in front, are
    the subtokens of the word, and these are the positions that the
    reverse map assigns to [idx]. *)
Theorem word_span_alignment (words : list string) (idx : nat) (word : string) :
  words !! idx = Some word →
  let before := scan_words tokenize (take idx words) in
  let after := scan_word tokenize before (idx, word) in
  let final := scan_words tokenize words in
  let first := (len (scan_token_ids before) + 1)%Z in
  let last := len (scan_token_ids after) in
  final = scan_from tokenize (S idx) (drop (S idx) words) after
  ∧ word_idx_to_start_token_idx final !! Z.of_nat idx = Some first
  ∧ word_idx_to_end_token_idx final !! Z.of_nat idx = Some last
  ∧ scan_token_ids after = scan_token_ids before ++ tokenize word
  ∧ take (Z.to_nat (last - first + 1))
      (drop (Z.to_nat (first - 1)) (scan_token_ids final))
    = tokenize word
  ∧ (∀ p : nat, 1 ≤ p →
       end_token_idx_to_word_idx final !! p = Some (Z.of_nat idx)
       ↔ (first ≤ Z.of_nat p ≤ last)%Z)
  ∧ (tokenize word ≠ [] → (first ≤ last)%Z).
Proof.
  intros Hw before after final first last.
  pose proof (lookup_lt_Some _ _ _ Hw) as Hidx.
  assert (Hfirst : first = (emitted tokenize words idx + 1)%Z).
  { unfold first, before. by rewrite scan_words_prefix_len. }
  assert (Hafter : scan_token_ids after = scan_token_ids before ++ tokenize word)
    by reflexivity.
  assert (Hlast : last = emitted tokenize words (S idx)).
  { unfold last. rewrite Hafter, len_app. unfold before.
    by rewrite scan_words_prefix_len, (emitted_step _ _ _ _ Hw). }
  assert (Hrun : (last - first + 1)%Z = len (tokenize word)).
  { rewrite Hlast, Hfirst, (emitted_step _ _ _ _ Hw). lia. }
  split; [by apply scan_words_through|].
  split; [by rewrite Hfirst; apply scan_words_start|].
  split; [by rewrite Hlast; apply scan_words_end|].
  split; [done|].
  split.
  { rewrite Hrun. unfold len at 1. rewrite Nat2Z.id.
    replace (first - 1)%Z with (emitted tokenize words idx) by lia.
    unfold final. rewrite scan_words_token_ids. by apply token_ids_slice. }
  split.
  { intros p Hp. unfold final. rewrite scan_words_owners.
    rewrite lookup_cons_ne_0 by lia. rewrite owners_lookup. split.
    - intros (i & _ & Hi & Hlo & Hhi). simpl in Hi.
      apply Nat2Z.inj in Hi. subst i. lia.
    - intros [Hlo Hhi]. exists idx. simpl. split; [done|]. split; [done|]. lia. }
  intros Hne. pose proof (len_nonneg (tokenize word)).
  assert (len (tokenize word) ≠ 0%Z).
  { unfold len. destruct (tokenize word); [done|simpl; lia]. }
  lia.
Qed.

(** C7. A word that expands to no subtoken leaves the running token count
    where it was: the last-subtoken index recorded for it is the count
    before the word, one less than the first-subtoken index recorded. *)
Theorem zero_expansion_span (words : list string) (idx : nat) (word : string) :
  words !! idx = Some word →
  tokenize word = [] →
  let before := scan_words tokenize (take idx words) in
  let after := scan_word tokenize before (idx, word) in
  let final := scan_words tokenize words in
  scan_token_ids after = scan_token_ids before
  ∧ word_idx_to_end_token_idx final !! Z.of_nat idx
    = Some (len (scan_token_ids before))
  ∧ word_idx_to_start_token_idx final !! Z.of_nat idx
    = Some (len (scan_token_ids before) + 1)%Z
  ∧ ∃ first last,
      word_idx_to_start_token_idx final !! Z.of_nat idx = Some first
      ∧ word_idx_to_end_token_idx final !! Z.of_nat idx = Some last
      ∧ last = (first - 1)%Z.
Proof.
  intros Hw Hnil before after final.
  pose proof (lookup_lt_Some _ _ _ Hw) as Hidx.
  assert (Hend : word_idx_to_end_token_idx final !! Z.of_nat idx
                 = Some (len (scan_token_ids before))).
  { unfold final, before. rewrite scan_words_end by done.
    rewrite scan_words_prefix_len, (emitted_step _ _ _ _ Hw), Hnil.
    f_equal. change (len (@nil string)) with 0%Z. lia. }
  assert (Hstart : word_idx_to_start_token_idx final !! Z.of_nat idx
                   = Some (len (scan_token_ids before) + 1)%Z).
  { unfold final, before. rewrite scan_words_start by done.
    by rewrite scan_words_prefix_len. }
  split.
  { unfold after. simpl. by rewrite Hnil, app_nil_r. }
  split; [done|]. split; [done|].
  eexists _, _. split; [exact Hstart|]. split; [exact Hend|]. lia.
Qed.

(** *** Remapping *)

Lemma result_map_ok {A B : Type} (f : A → result B) (g : A → B) (l : list A) :
  Forall (λ x, f x = inr (g x)) l → result_map f l = inr (map g l).
Proof.
  induction 1 as [|x l Hx _ IH]; [done|].
  simpl. by rewrite Hx, IH.
Qed.

Lemma result_map_KeyError {A B : Type} (f : A → result B) (l : list A) :
  Forall (λ x, is_KeyError (f x) ∨ ∃ y, f x = inr y) l →
  (is_KeyError (result_map f l) ↔ Exists (λ x, is_KeyError (f x)) l)
  ∧ (is_KeyError (result_map f l) ∨ ∃ ys, result_map f l = inr ys).
Proof.
  induction 1 as [|x l Hx _ [IH1 IH2]].
  - split; [|right; by eexists]. split.
    + intros [k Hk]. discriminate Hk.
    + intros H. inversion H.
  - simpl. destruct Hx as [[k Hk]|[y Hy]].
    + rewrite Hk. simpl. split; [|left; by exists k].
      split; [|by exists k]. intros _. left. rewrite Hk. by exists k.
    + rewrite Hy. simpl.
      assert (Hnot : ¬ is_KeyError (f x)).
      { rewrite Hy. intros [k Hk]. discriminate Hk. }
      destruct IH2 as [[k Hk]|[ys Hys]].
      * rewrite Hk. simpl. split; [|left; by exists k].
        split; [|by exists k]. intros _. right. apply IH1. by exists k.
      * rewrite Hys in *. simpl. split; [|right; by eexists]. split.
        -- intros [k Hk]. discriminate Hk.
        -- intros H. inversion H as [? ? H1|? ? H1]; subst; [done|].
           apply IH1 in H1. destruct H1 as [k Hk]. discriminate Hk.
Qed.

Lemma dict_get_Some (d : gmap Z Z) (k v : Z) :
  d !! k = Some v → dict_get d k = inr v.
Proof. intros H. unfold dict_get. by rewrite H. Qed.

Lemma dict_get_None (d : gmap Z Z) (k : Z) :
  d !! k = None → dict_get d k = inl (KeyError k).
Proof. intros H. unfold dict_get. by rewrite H. Qed.

(** The keys of both dictionaries are the word indices of the document. *)
Lemma scan_words_start_lookup (words : list string) (k : Z) :
  (0 ≤ k < len words)%Z →
  is_Some (word_idx_to_start_token_idx (scan_words tokenize words) !! k).
Proof.
  intros Hk. rewrite <- (Z2Nat.id k) by lia.
  rewrite scan_words_start by (unfold len in Hk; lia). by eexists.
Qed.

Lemma scan_words_end_lookup (words : list string) (k : Z) :
  (0 ≤ k < len words)%Z →
  is_Some (word_idx_to_end_token_idx (scan_words tokenize words) !! k).
Proof.
  intros Hk. rewrite <- (Z2Nat.id k) by lia.
  rewrite scan_words_end by (unfold len in Hk; lia). by eexists.
Qed.

Lemma remap_mention_cases (words : list string) (m : mention) :
  is_pair m →
  let st := scan_words tokenize words in
  (out_of_range (len words) m ∧ is_KeyError (remap_mention st m))
  ∨ (¬ out_of_range (len words) m ∧ remap_mention st m = inr (remapped st m)).
Proof.
  intros Hm st. destruct m as [|start [|end_ [|? ?]]]; try discriminate Hm.
  unfold remap_mention, remapped, out_of_range.
  destruct (decide (0 ≤ start < len words)%Z) as [Hs|Hs].
  - destruct (scan_words_start_lookup words start Hs) as [s Hs'].
    fold st in Hs'. rewrite (dict_get_Some _ _ _ Hs'), Hs'. simpl.
    destruct (decide (0 ≤ end_ - 1 < len words)%Z) as [He|He].
    + destruct (scan_words_end_lookup words _ He) as [e He'].
      fold st in He'. rewrite (dict_get_Some _ _ _ He'), He'. simpl.
      right. split; [tauto|done].
    + left. split; [tauto|].
      rewrite dict_get_None by (apply scan_words_end_None; lia).
      by eexists.
  - left. split; [tauto|].
    rewrite dict_get_None by (apply scan_words_start_None; lia).
    by eexists.
Qed.

(** A mention that is not of length two fails to unpack, whatever its
    entries. *)
Lemma remap_mention_arity (st : word_scan) (m : mention) :
  ¬ is_pair m → remap_mention st m = inl ValueError.
Proof.
  unfold is_pair. destruct m as [|start [|end_ [|? ?]]]; simpl; done.
Qed.

Lemma not_KeyError_inr {A : Type} (a : A) : ¬ is_KeyError (inr a : result A).
Proof. intros [k Hk]. discriminate Hk. Qed.

Lemma remap_cluster_spec (words : list string) (cluster : list mention) :
  Forall is_pair cluster →
  let st := scan_words tokenize words in
  (is_KeyError (result_map (remap_mention st) cluster)
   ↔ Exists (out_of_range (len words)) cluster)
  ∧ (is_KeyError (result_map (remap_mention st) cluster)
     ∨ result_map (remap_mention st) cluster = inr (map (remapped st) cluster)).
Proof.
  intros Hpairs st.
  assert (Hcases : Forall (λ m, is_KeyError (remap_mention st m)
                                ∨ ∃ y, remap_mention st m = inr y) cluster).
  { eapply Forall_impl; [exact Hpairs|]. intros m Hm. simpl.
    destruct (remap_mention_cases words m Hm) as [[_ H]|[_ H]];
      [by left|right; by eexists]. }
  destruct (result_map_KeyError _ _ Hcases) as [Hiff Hor].
  assert (Hex : Exists (λ m, is_KeyError (remap_mention st m)) cluster
                ↔ Exists (out_of_range (len words)) cluster).
  { rewrite !Exists_exists. split; intros (m & Hin & H); exists m; (split; [done|]).
    - rewrite Forall_forall in Hpairs.
      destruct (remap_mention_cases words m (Hpairs m Hin)) as [[Ho _]|[_ Hok]];
        [done|]. fold st in Hok. rewrite Hok in H. by apply not_KeyError_inr in H.
    - rewrite Forall_forall in Hpairs.
      destruct (remap_mention_cases words m (Hpairs m Hin)) as [[_ Hk]|[Hno _]];
        [done|tauto]. }
  split; [by rewrite Hiff|].
  destruct Hor as [Hk|[ys Hys]]; [by left|right].
  assert (Hk : ¬ is_KeyError (result_map (remap_mention st) cluster))
    by (rewrite Hys; apply not_KeyError_inr).
  apply result_map_ok. rewrite Forall_forall. intros m Hin.
  rewrite Forall_forall in Hpairs.
  destruct (remap_mention_cases words m (Hpairs m Hin)) as [[_ Hkm]|[_ Hok]];
    [|done].
  exfalso. apply Hk, Hiff, Exists_exists. by exists m.
Qed.

Lemma remap_clusters_spec (words : list string) (cls : list (list mention)) :
  Forall (Forall is_pair) cls →
  let st := scan_words tokenize words in
  (is_KeyError (remap_clusters st cls)
   ↔ Exists (Exists (out_of_range (len words))) cls)
  ∧ (is_KeyError (remap_clusters st cls)
     ∨ remap_clusters st cls = inr (map (map (remapped st)) cls)).
Proof.
  intros Hpairs st. unfold remap_clusters.
  rewrite Forall_forall in Hpairs.
  assert (Hcases : Forall (λ c, is_KeyError (result_map (remap_mention st) c)
                                ∨ ∃ y, result_map (remap_mention st) c = inr y) cls).
  { rewrite Forall_forall. intros c Hc.
    destruct (remap_cluster_spec words c (Hpairs c Hc)) as [_ [H|H]];
      [by left|right; by eexists]. }
  destruct (result_map_KeyError _ _ Hcases) as [Hiff Hor].
  assert (Hex : Exists (λ c, is_KeyError (result_map (remap_mention st) c)) cls
                ↔ Exists (Exists (out_of_range (len words))) cls).
  { rewrite !Exists_exists.
    split; intros (c & Hin & H); exists c; (split; [done|]);
      by apply (remap_cluster_spec words c (Hpairs c Hin)). }
  split; [by rewrite Hiff|].
  destruct Hor as [Hk|[ys Hys]]; [by left|right].
  apply result_map_ok. rewrite Forall_forall. intros c Hin.
  destruct (remap_cluster_spec words c (Hpairs c Hin)) as [_ [Hkc|Hok]]; [|done].
  exfalso. eapply not_KeyError_inr. rewrite <- Hys. apply Hiff, Exists_exists.
  by exists c.
Qed.

Lemma too_long_exceeds (max_seq_length : Z) (doc_key : string)
    (words : list string) (cls : list (list mention)) :
  too_long max_seq_length (scan_words tokenize words)
  = exceeds tokenize max_seq_length (doc_key, words, cls).
Proof.
  unfold too_long, exceeds, subtoken_count. simpl.
  by rewrite scan_words_token_ids.
Qed.

(** C2. For a document that passes the length filter and whose mentions
    are [(start, end)] pairs, the loop body raises a [KeyError] exactly
    when some mention has [start] or [end - 1] outside the word range of
    the document; otherwise it appends the example whose clusters are the
    mentions remapped to
    [(word_idx_to_start_token_idx[start], word_idx_to_end_token_idx[end - 1])],
    both entries being recorded. *)
Theorem cluster_remapping (max_seq_length : Z)
    (acc : list tokenized_example * list Z * Z)
    (doc_key : string) (words : list string) (cls : list (list mention)) :
  let st := scan_words tokenize words in
  too_long max_seq_length st = false →
  Forall (Forall is_pair) cls →
  ((∃ k, tokenize_example tokenize max_seq_length acc (doc_key, words, cls)
         = inl (KeyError k))
   ↔ Exists (Exists (out_of_range (len words))) cls)
  ∧ (¬ Exists (Exists (out_of_range (len words))) cls →
     tokenize_example tokenize max_seq_length acc (doc_key, words, cls)
     = inr (acc.1.1 ++
              [((doc_key, end_token_idx_to_word_idx st),
                {| token_ids := scan_token_ids st;
                   clusters := map (map (remapped st)) cls |})],
            acc.1.2 ++ [len (scan_token_ids st)],
            acc.2))
  ∧ (∀ cluster start end_,
       cluster ∈ cls → [start; end_] ∈ cluster →
       ¬ out_of_range (len words) [start; end_] →
       word_idx_to_start_token_idx st !! start
       = Some (remapped st [start; end_]).1
       ∧ word_idx_to_end_token_idx st !! (end_ - 1)%Z
         = Some (remapped st [start; end_]).2).
Proof.
  intros st Hkeep Hpairs. destruct acc as [[outs lens] n].
  unfold tokenize_example. fold st. rewrite Hkeep. simpl.
  destruct (remap_clusters_spec words cls Hpairs) as [Hiff Hor]. fold st in Hiff, Hor.
  split; [|split].
  - rewrite <- Hiff. destruct (remap_clusters st cls) as [e|new_clusters]; simpl.
    + split; intros [k Hk]; exists k; congruence.
    + split; intros [k Hk]; discriminate Hk.
  - intros Hno. destruct Hor as [Hk|Hok]; [by apply Hiff in Hk|].
    by rewrite Hok.
  - intros cluster start end_ _ _ Hin. simpl in Hin.
    assert (Hs : (0 ≤ start < len words)%Z) by lia.
    assert (He : (0 ≤ end_ - 1 < len words)%Z) by lia.
    destruct (scan_words_start_lookup words start Hs) as [s Hs'].
    destruct (scan_words_end_lookup words _ He) as [e He'].
    fold st in Hs', He'. simpl. by rewrite Hs', He'.
Qed.

(** *** The length filter *)

Lemma tokenize_example_filtered (max_seq_length : Z)
    (acc : list tokenized_example * list Z * Z) (ex : example) :
  exceeds tokenize max_seq_length ex = true →
  tokenize_example tokenize max_seq_length acc ex
  = inr (acc.1.1, acc.1.2, (acc.2 + 1)%Z).
Proof.
  intros Hex. destruct acc as [[outs lens] n], ex as [[doc_key words] cls].
  unfold tokenize_example.
  by rewrite (too_long_exceeds _ doc_key words cls), Hex.
Qed.

Lemma tokenize_example_kept (max_seq_length : Z)
    (acc : list tokenized_example * list Z * Z) (ex : example) :
  exceeds tokenize max_seq_length ex = false →
  tokenize_example tokenize max_seq_length acc ex
  = do kept <- aligned tokenize ex in
    ret (acc.1.1 ++ [kept], acc.1.2 ++ [len (token_ids kept.2)], acc.2).
Proof.
  intros Hex. destruct acc as [[outs lens] n], ex as [[doc_key words] cls].
  unfold tokenize_example, aligned.
  rewrite (too_long_exceeds _ doc_key words cls), Hex.
  by destruct (remap_clusters _ cls).
Qed.

Lemma exceeds_true (max_seq_length : Z) (ex : example) :
  exceeds tokenize max_seq_length ex = true
  ↔ (0 < max_seq_length)%Z ∧ (max_seq_length < subtoken_count tokenize ex)%Z.
Proof. unfold exceeds. rewrite andb_true_iff, !Z.ltb_lt. tauto. Qed.

(** The loop of [_tokenize] from any accumulator: the kept documents are
    aligned in order, the lengths follow them, the others are counted. *)
Lemma tokenize_loop (max_seq_length : Z) (exs : list example) :
  ∀ outs lens n,
  result_fold (tokenize_example tokenize max_seq_length) exs (outs, lens, n)
  = do kept <- result_map (aligned tokenize)
                 (List.filter (λ ex, negb (exceeds tokenize max_seq_length ex)) exs) in
    ret (outs ++ kept,
         lens ++ map (λ o : tokenized_example, len (token_ids o.2)) kept,
         (n + len (List.filter (exceeds tokenize max_seq_length) exs))%Z).
Proof.
  induction exs as [|ex exs IH]; intros outs lens n.
  - simpl. rewrite !app_nil_r. do 2 f_equal. unfold len. simpl. lia.
  - cbn [result_fold List.filter].
    destruct (exceeds tokenize max_seq_length ex) eqn:Hex; cbn [negb].
    + rewrite tokenize_example_filtered by done. cbn [bind fst snd]. rewrite IH.
      destruct (result_map _ _); [done|]. cbn [bind]. unfold ret. do 2 f_equal.
      unfold len. simpl. lia.
    + rewrite tokenize_example_kept by done. cbn [result_map].
      destruct (aligned tokenize ex) as [e|kept]; [done|]. cbn [bind fst snd ret].
      rewrite IH. destruct (result_map _ _); [done|]. cbn [bind ret map].
      by rewrite <- !app_assoc.
Qed.

Lemma aligned_inr (ex : example) (o : tokenized_example) :
  aligned tokenize ex = inr o →
  o.1.1 = ex.1.1 ∧ token_ids o.2 = concat (map tokenize ex.1.2).
Proof.
  destruct ex as [[doc_key words] cls]. unfold aligned.
  destruct (remap_clusters _ cls); [done|]. simpl. intros [= <-]. simpl.
  split; [done|]. apply scan_words_token_ids.
Qed.

Lemma result_map_aligned (exs : list example) : ∀ outs,
  result_map (aligned tokenize) exs = inr outs →
  Forall2 (λ (ex : example) (o : tokenized_example),
             o.1.1 = ex.1.1 ∧ token_ids o.2 = concat (map tokenize ex.1.2))
    exs outs.
Proof.
  induction exs as [|ex exs IH]; intros outs; simpl.
  - intros [= <-]. constructor.
  - destruct (aligned tokenize ex) as [e|o] eqn:Ho; [done|]. simpl.
    destruct (result_map _ exs) as [e|os]; [done|]. simpl. intros [= <-].
    constructor; [by apply aligned_inr|by apply IH].
Qed.

Lemma filter_disabled (max_seq_length : Z) (exs : list example) :
  (max_seq_length ≤ 0)%Z →
  List.filter (λ ex, negb (exceeds tokenize max_seq_length ex)) exs = exs
  ∧ List.filter (exceeds tokenize max_seq_length) exs = [].
Proof.
  intros Hle.
  assert (Hex : ∀ ex, exceeds tokenize max_seq_length ex = false).
  { intros ex. unfold exceeds. apply andb_false_iff. left. apply Z.ltb_ge. lia. }
  induction exs as [|ex exs [IH1 IH2]]; [done|].
  simpl. rewrite Hex. simpl. by rewrite IH1, IH2.
Qed.

(** C3. A document whose subtoken count exceeds a positive
    [max_seq_length] adds nothing to the output and to the lengths and
    exactly one to the filtered counter. The run of [_tokenize] returns
    the aligned surviving documents in input order, or the exception of
    the first of them that fails; when it returns, output and survivors
    correspond position by position, the length list holds the subtoken
    count of each output at the same position, and the counter is the
    number of documents that exceed the maximum. With
    [max_seq_length <= 0] every document survives and the counter is 0. *)
Theorem length_filter (max_seq_length : Z) :
  (∀ (acc : list tokenized_example * list Z * Z) (ex : example),
     (0 < max_seq_length)%Z →
     (max_seq_length < subtoken_count tokenize ex)%Z →
     tokenize_example tokenize max_seq_length acc ex
     = inr (acc.1.1, acc.1.2, (acc.2 + 1)%Z))
  ∧ (∀ exs : list example,
       let survivors :=
         List.filter (λ ex, negb (exceeds tokenize max_seq_length ex)) exs in
       let dropped := List.filter (exceeds tokenize max_seq_length) exs in
       _tokenize tokenize max_seq_length exs
       = (do kept <- result_map (aligned tokenize) survivors in
          ret (kept,
               map (λ o : tokenized_example, len (token_ids o.2)) kept,
               len dropped))
       ∧ (∀ outs lens n,
            _tokenize tokenize max_seq_length exs = inr (outs, lens, n) →
            Forall2 (λ (ex : example) (o : tokenized_example),
                       o.1.1 = ex.1.1
                       ∧ token_ids o.2 = concat (map tokenize ex.1.2))
              survivors outs
            ∧ lens = map (λ o : tokenized_example, len (token_ids o.2)) outs
            ∧ n = len dropped)
       ∧ ((max_seq_length ≤ 0)%Z → survivors = exs ∧ dropped = [])).
Proof.
  split; [|intros exs survivors dropped; split; [|split]].
  - intros acc ex Hpos Hlong. apply tokenize_example_filtered.
    by apply exceeds_true.
  - unfold _tokenize. rewrite tokenize_loop. fold survivors dropped.
    destruct (result_map _ survivors); [done|]. simpl. by rewrite Z.add_0_l.
  - intros outs lens n. unfold _tokenize. rewrite tokenize_loop.
    fold survivors dropped.
    destruct (result_map _ survivors) as [e|kept] eqn:Hkept; [done|].
    simpl. intros [= <- <- <-].
    split; [by apply result_map_aligned|]. split; [done|lia].
  - apply filter_disabled.
Qed.

(** C10. The length test comes before the remapping: for a document whose
    subtoken count exceeds a positive [max_seq_length] the loop body
    returns without an exception whatever its clusters are, with output
    and lengths untouched and the counter increased by one. *)
Theorem filter_precedes_remapping (max_seq_length : Z)
    (acc : list tokenized_example * list Z * Z)
    (doc_key : string) (words : list string) (cls : list (list mention)) :
  (0 < max_seq_length)%Z →
  (max_seq_length < len (scan_token_ids (scan_words tokenize words)))%Z →
  tokenize_example tokenize max_seq_length acc (doc_key, words, cls)
  = inr (acc.1.1, acc.1.2, (acc.2 + 1)%Z)
  ∧ _tokenize tokenize max_seq_length [(doc_key, words, cls)]
    = inr ([], [], 1%Z).
Proof.
  intros Hpos Hlong.
  assert (Hex : exceeds tokenize max_seq_length (doc_key, words, cls) = true).
  { apply exceeds_true. split; [done|]. unfold subtoken_count. simpl.
    by rewrite <- scan_words_token_ids. }
  split; [by apply tokenize_example_filtered|].
  unfold _tokenize. cbn [result_fold].
  by rewrite tokenize_example_filtered.
Qed.

(** *** The scenario of the specification *)

Lemma scan_words_start_Z (words : list string) (k : Z) :
  (0 ≤ k < len words)%Z →
  word_idx_to_start_token_idx (scan_words tokenize words) !! k
  = Some (emitted tokenize words (Z.to_nat k) + 1)%Z.
Proof.
  intros Hk. rewrite <- (Z2Nat.id k) at 1 by lia.
  apply scan_words_start. unfold len in Hk. lia.
Qed.

Lemma scan_words_end_Z (words : list string) (k : Z) :
  (0 ≤ k < len words)%Z →
  word_idx_to_end_token_idx (scan_words tokenize words) !! k
  = Some (emitted tokenize words (S (Z.to_nat k))).
Proof.
  intros Hk. rewrite <- (Z2Nat.id k) at 1 by lia.
  apply scan_words_end. unfold len in Hk. lia.
Qed.

Lemma emitted_unit (words : list string) : ∀ k,
  (∀ w, length (tokenize w) = 1) →
  k ≤ length words →
  emitted tokenize words k = Z.of_nat k.
Proof.
  intros k Hone. revert k. induction words as [|w words IH]; intros k Hk.
  - simpl in Hk. by replace k with 0 by lia.
  - destruct k as [|k]; [done|].
    rewrite emitted_cons, IH by (simpl in Hk; lia).
    unfold len. rewrite Hone. lia.
Qed.

(** C6. With a tokenizer that maps every word to one subtoken, and no
    maximum sequence length between 1 and 11, the document of twelve words
    with the cluster [[0,2],[7,8]] is aligned to twelve subtokens and the
    cluster [(1,2),(8,8)]. *)
Theorem john_smith_scenario (max_seq_length : Z) (doc_key : string) :
  (∀ w, length (tokenize w) = 1) →
  ¬ (0 < max_seq_length < 12)%Z →
  ∃ owners toks,
    _tokenize tokenize max_seq_length
      [(doc_key, Sample.words, [[[0; 2]; [7; 8]]]%Z)]
    = inr ([((doc_key, owners),
             {| token_ids := toks; clusters := [[(1, 2); (8, 8)]]%Z |})],
           [12%Z], 0%Z)
    ∧ len toks = 12%Z.
Proof.
  intros Hone Hmax.
  set (st := scan_words tokenize Sample.words).
  assert (Hlen : len (scan_token_ids st) = 12%Z).
  { unfold st. rewrite <- (take_ge Sample.words 12) by (simpl; lia).
    rewrite scan_words_prefix_len, emitted_unit by (done || simpl; lia).
    reflexivity. }
  assert (Hkeep : too_long max_seq_length st = false).
  { unfold too_long. rewrite Hlen. apply andb_false_iff.
    rewrite !Z.ltb_ge. lia. }
  exists (end_token_idx_to_word_idx st), (scan_token_ids st).
  split; [|done].
  unfold _tokenize. cbn [result_fold]. unfold tokenize_example.
  fold st. rewrite Hkeep.
  unfold remap_clusters, result_map, remap_mention, dict_get.
  unfold st.
  rewrite !scan_words_start_Z, !scan_words_end_Z by (unfold len; simpl; lia).
  rewrite !emitted_unit by (done || simpl; lia).
  fold st. cbn [bind ret]. rewrite Hlen. reflexivity.
Qed.

End Aligner.

(** ** Properties of the parser *)

Section Parser.

Variable load_record : string → result record.

Lemma fold_max_ge_init (xs : list Z) : ∀ a, (a ≤ fold_left Z.max xs a)%Z.
Proof.
  induction xs as [|x xs IH]; intros a; simpl; [lia|].
  specialize (IH (Z.max a x)). lia.
Qed.

Lemma fold_max_upper (xs : list Z) : ∀ a x,
  x ∈ xs → (x ≤ fold_left Z.max xs a)%Z.
Proof.
  induction xs as [|y xs IH]; intros a x Hx; [by apply elem_of_nil in Hx|].
  apply elem_of_cons in Hx as [->|Hx]; simpl.
  - pose proof (fold_max_ge_init xs (Z.max a y)). lia.
  - by apply IH.
Qed.

Lemma fold_max_attained (xs : list Z) : ∀ a,
  fold_left Z.max xs a = a ∨ fold_left Z.max xs a ∈ xs.
Proof.
  induction xs as [|x xs IH]; intros a; simpl; [by left|].
  destruct (IH (Z.max a x)) as [H|H].
  - rewrite H. destruct (Z.max_spec a x) as [[_ ->]|[_ ->]];
      [right; apply elem_of_cons; by left|by left].
  - right. apply elem_of_cons. by right.
Qed.

(** A running maximum started at [-1] over non-negative candidates is
    their maximum. *)
Lemma fold_max_is_max (xs : list Z) :
  Forall (λ x, (0 ≤ x)%Z) xs → is_max_of (fold_left Z.max xs (-1)%Z) xs.
Proof.
  intros Hnn. destruct xs as [|x xs]; [done|].
  split; [|intros y Hy; by apply fold_max_upper].
  destruct (fold_max_attained (x :: xs) (-1)%Z) as [H|H]; [|done].
  pose proof (fold_max_upper (x :: xs) (-1)%Z x) as Hx.
  apply Forall_cons in Hnn as [Hx0 _].
  specialize (Hx ltac:(apply elem_of_cons; by left)). lia.
Qed.

Lemma py_max_is_max (x : Z) (xs : list Z) :
  py_max x xs ∈ x :: xs ∧ ∀ y, y ∈ x :: xs → (y ≤ py_max x xs)%Z.
Proof.
  unfold py_max. split.
  - destruct (fold_max_attained xs x) as [->|H]; apply elem_of_cons; tauto.
  - intros y Hy. apply elem_of_cons in Hy as [->|Hy];
      [apply fold_max_ge_init|by apply fold_max_upper].
Qed.

Lemma len_concat_sum {A : Type} (ls : list (list A)) :
  len (concat ls) = fold_right Z.add 0%Z (map len ls).
Proof.
  induction ls as [|l ls IH]; [done|]. simpl. by rewrite len_app, IH.
Qed.

(** The three candidates a document offers to the running maxima, as
    [parse_line] computes them. *)
Lemma parse_line_inr (acc : list example * Z * Z * Z) (line : string) (d : record) :
  load_record line = inr d →
  ∃ c, is_max_of c (cluster_sizes d)
       ∧ parse_line load_record acc line
         = inr (acc.1.1.1 ++ [example_of d],
                Z.max acc.1.1.2 (mention_count d),
                Z.max acc.1.2 c,
                Z.max acc.2 (cluster_count d)).
Proof.
  intros Hd. destruct acc as [[[exs m1] m2] m3].
  unfold parse_line. rewrite Hd. simpl.
  unfold flatten_list_of_lists, mention_count, cluster_count, cluster_sizes, example_of.
  rewrite len_concat_sum.
  destruct (r_clusters d) as [|cluster rest] eqn:Hcls.
  - exists 0%Z. split; [|done]. split; [apply elem_of_cons; by left|].
    intros x Hx. apply elem_of_cons in Hx as [->|Hx]; [done|].
    by apply elem_of_nil in Hx.
  - exists (py_max (len cluster) (map len rest)).
    split; [apply py_max_is_max|done].
Qed.

Lemma parse_loop (file : list string) : ∀ docs exs m1 m2 m3,
  result_map load_record file = inr docs →
  ∃ cands,
    Forall2 (λ d c, is_max_of c (cluster_sizes d)) docs cands
    ∧ result_fold (parse_line load_record) file (exs, m1, m2, m3)
      = inr (exs ++ map example_of docs,
             fold_left Z.max (map mention_count docs) m1,
             fold_left Z.max cands m2,
             fold_left Z.max (map cluster_count docs) m3).
Proof.
  induction file as [|line file IH]; intros docs exs m1 m2 m3 Hdocs.
  - injection Hdocs as <-. exists []. split; [constructor|].
    simpl. by rewrite app_nil_r.
  - cbn [result_map] in Hdocs.
    destruct (load_record line) as [e|d] eqn:Hd; [done|].
    destruct (result_map load_record file) as [e|docs'] eqn:Hdocs'; [done|].
    injection Hdocs as <-.
    destruct (parse_line_inr (exs, m1, m2, m3) line d Hd) as (c & Hc & Hline).
    cbn [result_fold]. rewrite Hline. cbn [bind fst snd].
    destruct (IH docs' (exs ++ [example_of d]) (Z.max m1 (mention_count d))
                (Z.max m2 c) (Z.max m3 (cluster_count d)) eq_refl)
      as (cands & Hcands & ->).
    exists (c :: cands). split; [by constructor|].
    simpl. by rewrite <- app_assoc.
Qed.

Lemma cluster_sizes_max (d : record) (c : Z) :
  is_max_of c (cluster_sizes d) →
  c ∈ cluster_sizes d ∧ (∀ x, x ∈ cluster_sizes d → (x ≤ c)%Z) ∧ (0 ≤ c)%Z.
Proof.
  unfold is_max_of, cluster_sizes. destruct (r_clusters d) as [|cl rest].
  - intros [Hin Hub]. split; [done|]. split; [done|].
    apply Hub, elem_of_cons. by left.
  - simpl. intros [Hin Hub]. split; [done|]. split; [done|].
    transitivity (len cl); [apply len_nonneg|].
    apply Hub, elem_of_cons. by left.
Qed.

(** The maximum of the per-document maxima is the maximum over all
    clusters of the corpus. *)
Lemma maxima_member (docs : list record) (cands : list Z) (m : Z) :
  Forall2 (λ d c, is_max_of c (cluster_sizes d)) docs cands →
  m ∈ cands → m ∈ concat (map cluster_sizes docs).
Proof.
  induction 1 as [|d c docs cands Hd _ IH]; intros Hin.
  - by apply elem_of_nil in Hin.
  - simpl. apply elem_of_app. apply elem_of_cons in Hin as [->|Hin].
    + left. apply (cluster_sizes_max d c Hd).
    + right. by apply IH.
Qed.

Lemma maxima_upper (docs : list record) (cands : list Z) (m : Z) :
  Forall2 (λ d c, is_max_of c (cluster_sizes d)) docs cands →
  (∀ c, c ∈ cands → (c ≤ m)%Z) →
  ∀ x, x ∈ concat (map cluster_sizes docs) → (x ≤ m)%Z.
Proof.
  induction 1 as [|d c docs cands Hd _ IH]; intros Hub x Hx.
  - by apply elem_of_nil in Hx.
  - simpl in Hx. apply elem_of_app in Hx as [Hx|Hx].
    + destruct (cluster_sizes_max d c Hd) as (_ & Hcub & _).
      specialize (Hcub x Hx).
      specialize (Hub c ltac:(apply elem_of_cons; by left)). lia.
    + apply IH; [|done]. intros c' Hc'. apply Hub, elem_of_cons. by right.
Qed.

Lemma max_of_maxima (docs : list record) (cands : list Z) (m : Z) :
  Forall2 (λ d c, is_max_of c (cluster_sizes d)) docs cands →
  m ∈ cands → (∀ c, c ∈ cands → (c ≤ m)%Z) →
  m ∈ concat (map cluster_sizes docs)
  ∧ ∀ x, x ∈ concat (map cluster_sizes docs) → (x ≤ m)%Z.
Proof.
  intros Hall Hin Hub. split;
    [by eapply maxima_member|by eapply maxima_upper].
Qed.

Lemma is_max_of_concat (docs : list record) (cands : list Z) :
  Forall2 (λ d c, is_max_of c (cluster_sizes d)) docs cands →
  is_max_of (fold_left Z.max cands (-1)%Z) (concat (map cluster_sizes docs)).
Proof.
  intros Hall.
  assert (Hcands : Forall (λ x, (0 ≤ x)%Z) cands).
  { induction Hall as [|d c docs cands Hd _ IH]; constructor; [|done].
    apply (cluster_sizes_max d c Hd). }
  pose proof (fold_max_is_max cands Hcands) as Hfold.
  destruct Hall as [|d c docs cands Hd Hrest]; [done|].
  destruct Hfold as [Hin Hub].
  pose proof (max_of_maxima (d :: docs) (c :: cands) _
                ltac:(by constructor) Hin Hub) as [Hm1 Hm2].
  unfold is_max_of.
  destruct (concat (map cluster_sizes (d :: docs))) as [|z zs] eqn:Hz;
    [by apply elem_of_nil in Hm1|done].
Qed.

Lemma mention_count_nonneg (d : record) : (0 ≤ mention_count d)%Z.
Proof.
  unfold mention_count. rewrite <- len_concat_sum. apply len_nonneg.
Qed.

(** What [_parse_jsonlines] returns on a file all of whose lines decode. *)
Lemma parse_jsonlines_spec (file : list string) (docs : list record) :
  result_map load_record file = inr docs →
  ∃ cands,
    Forall2 (λ d c, is_max_of c (cluster_sizes d)) docs cands
    ∧ _parse_jsonlines load_record file
      = inr (map example_of docs,
             fold_left Z.max (map mention_count docs) (-1)%Z,
             fold_left Z.max cands (-1)%Z,
             fold_left Z.max (map cluster_count docs) (-1)%Z)
    ∧ is_max_of (fold_left Z.max (map mention_count docs) (-1)%Z)
        (map mention_count docs)
    ∧ is_max_of (fold_left Z.max cands (-1)%Z) (concat (map cluster_sizes docs))
    ∧ is_max_of (fold_left Z.max (map cluster_count docs) (-1)%Z)
        (map cluster_count docs).
Proof.
  intros Hdocs.
  destruct (parse_loop file docs [] (-1)%Z (-1)%Z (-1)%Z Hdocs)
    as (cands & Hcands & Hrun).
  exists cands. split; [done|]. split; [exact Hrun|].
  split; [|split].
  - apply fold_max_is_max, Forall_forall. intros x.
    rewrite list_elem_of_In, in_map_iff. intros (d & <- & _).
    apply mention_count_nonneg.
  - by apply is_max_of_concat.
  - apply fold_max_is_max, Forall_forall. intros x.
    rewrite list_elem_of_In, in_map_iff. intros (d & <- & _).
    apply len_nonneg.
Qed.

(** C8. On a corpus whose lines all decode, the parser returns the parsed
    examples with three maxima, each a running maximum started at -1:
    [max_mention_num] over the total mention count of each document,
    [max_cluster_size] over one candidate per document (the largest
    mention count of its clusters, 0 when it has none) and so the maximum
    over all clusters of the corpus, and [max_num_clusters] over the
    cluster count of each document. All three are -1 on an empty corpus. *)
Theorem corpus_maxima (file : list string) (docs : list record) :
  result_map load_record file = inr docs →
  ∃ (m1 m2 m3 : Z) (cands : list Z),
    _parse_jsonlines load_record file = inr (map example_of docs, m1, m2, m3)
    ∧ is_max_of m1 (map mention_count docs)
    ∧ is_max_of m2 (concat (map cluster_sizes docs))
    ∧ is_max_of m3 (map cluster_count docs)
    ∧ m1 = fold_left Z.max (map mention_count docs) (-1)%Z
    ∧ Forall2 (λ d c, is_max_of c (cluster_sizes d)) docs cands
    ∧ m2 = fold_left Z.max cands (-1)%Z
    ∧ m3 = fold_left Z.max (map cluster_count docs) (-1)%Z
    ∧ (docs = [] → m1 = (-1)%Z ∧ m2 = (-1)%Z ∧ m3 = (-1)%Z).
Proof.
  intros Hdocs.
  destruct (parse_jsonlines_spec file docs Hdocs)
    as (cands & Hcands & Hrun & H1 & H2 & H3).
  eexists _, _, _, cands. split; [exact Hrun|].
  do 3 (split; [done|]). split; [done|]. split; [done|].
  split; [done|]. split; [done|].
  intros ->. inversion Hcands; subst. done.
Qed.

(** Once a line has been read, [max_cluster_size] is no longer
    negative. *)
Lemma parse_maxima_consistent (file : list string) :
  ∀ acc acc' : list example * Z * Z * Z,
  result_fold (parse_line load_record) file acc = inr acc' →
  (acc.2 = (-1)%Z ∨ (0 ≤ acc.1.2)%Z) →
  (acc'.2 = (-1)%Z ∨ (0 ≤ acc'.1.2)%Z).
Proof.
  induction file as [|line file IH]; intros acc acc' Hrun Hacc.
  - by injection Hrun as <-.
  - cbn [result_fold] in Hrun.
    destruct (load_record line) as [e|d] eqn:Hd.
    { destruct acc as [[[exs m1] m2] m3]. unfold parse_line in Hrun.
      by rewrite Hd in Hrun. }
    destruct (parse_line_inr acc line d Hd) as (c & Hc & Hline).
    rewrite Hline in Hrun. cbn [bind] in Hrun.
    apply (IH _ _ Hrun). right. simpl.
    destruct (cluster_sizes_max d c Hc) as (_ & _ & Hc0). lia.
Qed.

End Parser.

(** ** Properties of the cluster padding *)

Section Padding.

Variable tokenize : string → list string.
Variable load_record : string → result record.
Variable NULL_ID_FOR_COREF : Z.

Lemma lookup_map {A B : Type} (f : A → B) (l : list A) (i : nat) :
  map f l !! i = f <$> l !! i.
Proof.
  revert i. induction l as [|x l IH]; intros [|i]; simpl; done.
Qed.

Lemma length_list_mul_single {A : Type} (x : A) (n : Z) :
  length (list_mul [x] n) = Z.to_nat n.
Proof.
  unfold list_mul. induction (Z.to_nat n) as [|k IH]; [done|].
  simpl. by rewrite IH.
Qed.

Lemma list_mul_nonpos {A : Type} (l : list A) (n : Z) :
  (n ≤ 0)%Z → list_mul l n = [].
Proof. intros Hn. unfold list_mul. by replace (Z.to_nat n) with 0 by lia. Qed.

Lemma list_mul_single_Forall {A : Type} (P : A → Prop) (x : A) (n : Z) :
  P x → Forall P (list_mul [x] n).
Proof.
  intros Hx. unfold list_mul. induction (Z.to_nat n) as [|k IH]; simpl;
    [constructor|by constructor].
Qed.

Lemma len_pad_inside (self : CorefDataset) (cluster : list (Z * Z)) :
  len (cluster ++
         list_mul [(NULL_ID_FOR_COREF, NULL_ID_FOR_COREF)]
           (max_cluster_size self - len cluster))
  = Z.max (len cluster) (max_cluster_size self).
Proof.
  rewrite len_app. unfold len at 2. rewrite length_list_mul_single.
  pose proof (len_nonneg cluster). lia.
Qed.

Lemma len_pad_outside (self : CorefDataset) (cls : list (list (Z * Z))) :
  len (pad_clusters_outside self cls) = Z.max (len cls) (max_num_clusters self).
Proof.
  unfold pad_clusters_outside.
  rewrite len_app. unfold len at 2. rewrite length_list_mul_single.
  pose proof (len_nonneg cls). lia.
Qed.

Lemma len_pad_clusters (self : CorefDataset) (cls : list (list (Z * Z))) :
  len (pad_clusters NULL_ID_FOR_COREF self cls)
  = Z.max (len cls) (max_num_clusters self).
Proof.
  unfold pad_clusters, pad_clusters_inside.
  unfold len at 1. rewrite length_map. apply len_pad_outside.
Qed.

(** The shape of the padded clusters when the maxima bound the document
    and [max_cluster_size] is not negative. *)
Lemma pad_clusters_shape (self : CorefDataset) (cls : list (list (Z * Z))) :
  (0 ≤ max_cluster_size self)%Z →
  (len cls ≤ max_num_clusters self)%Z →
  Forall (λ c, (len c ≤ max_cluster_size self)%Z) cls →
  len (pad_clusters NULL_ID_FOR_COREF self cls) = max_num_clusters self
  ∧ Forall (λ c, len c = max_cluster_size self)
      (pad_clusters NULL_ID_FOR_COREF self cls).
Proof.
  intros Hsize Hcount Hfit. split; [rewrite len_pad_clusters; lia|].
  unfold pad_clusters, pad_clusters_inside, pad_clusters_outside.
  rewrite Forall_forall. intros c. rewrite list_elem_of_In, in_map_iff.
  intros (c0 & <- & Hc0). rewrite len_pad_inside.
  apply in_app_or in Hc0 as [Hc0|Hc0].
  - rewrite Forall_forall in Hfit.
    apply list_elem_of_In, Hfit in Hc0. lia.
  - assert (Hnil : Forall (λ c : list (Z * Z), c = [])
                     (list_mul [[]] (max_num_clusters self - len cls)))
      by (by apply list_mul_single_Forall).
    rewrite Forall_forall in Hnil.
    apply list_elem_of_In, Hnil in Hc0. subst c0.
    change (len (@nil (Z * Z))) with 0%Z. lia.
Qed.

Lemma init_maxima (file : list string) (max_seq_length : Z)
    (self : CorefDataset) :
  __init__ tokenize load_record file max_seq_length = inr self →
  max_num_clusters self = (-1)%Z ∨ (0 ≤ max_cluster_size self)%Z.
Proof.
  unfold __init__.
  destruct (_parse_jsonlines load_record file) as [e|[[[exs m1] m2] m3]] eqn:Hparse;
    [done|].
  cbn [bind].
  destruct (_tokenize tokenize max_seq_length exs) as [e|[[outs lens] n]];
    [done|].
  cbn [bind ret]. intros [= <-]. simpl.
  apply (parse_maxima_consistent load_record file _ _ Hparse). by left.
Qed.

(** C4. For a dataset built by [__init__], a cluster list of at most
    [max_num_clusters] clusters, each of at most [max_cluster_size]
    mentions, is padded to exactly [max_num_clusters] clusters of exactly
    [max_cluster_size] mention pairs each; so are the clusters of every
    example of a batch of such documents. *)
Theorem padded_cluster_shape (file : list string) (max_seq_length : Z)
    (self : CorefDataset) :
  __init__ tokenize load_record file max_seq_length = inr self →
  (∀ cls : list (list (Z * Z)),
     (len cls ≤ max_num_clusters self)%Z →
     Forall (λ c, (len c ≤ max_cluster_size self)%Z) cls →
     len (pad_clusters NULL_ID_FOR_COREF self cls) = max_num_clusters self
     ∧ Forall (λ c, len c = max_cluster_size self)
         (pad_clusters NULL_ID_FOR_COREF self cls))
  ∧ (∀ batch : list CorefExample,
       Forall (λ ex, (len (clusters ex) ≤ max_num_clusters self)%Z
                     ∧ Forall (λ c, (len c ≤ max_cluster_size self)%Z)
                         (clusters ex)) batch →
       Forall (λ ex,
                 len (pad_clusters NULL_ID_FOR_COREF self (clusters ex))
                 = max_num_clusters self
                 ∧ Forall (λ c, len c = max_cluster_size self)
                     (pad_clusters NULL_ID_FOR_COREF self (clusters ex)))
         batch).
Proof.
  intros Hself.
  assert (Hone : ∀ cls : list (list (Z * Z)),
            (len cls ≤ max_num_clusters self)%Z →
            Forall (λ c, (len c ≤ max_cluster_size self)%Z) cls →
            len (pad_clusters NULL_ID_FOR_COREF self cls) = max_num_clusters self
            ∧ Forall (λ c, len c = max_cluster_size self)
                (pad_clusters NULL_ID_FOR_COREF self cls)).
  { intros cls Hcount Hfit.
    destruct (init_maxima _ _ _ Hself) as [Hempty|Hsize].
    - pose proof (len_nonneg cls). lia.
    - by apply pad_clusters_shape. }
  split; [exact Hone|].
  intros batch Hbatch. eapply Forall_impl; [exact Hbatch|].
  intros ex [Hcount Hfit]. by apply Hone.
Qed.

(** C5 (amended). [pad_clusters] never truncates: each cluster of the
    input is at the same position of the result, followed by its padding;
    a cluster of more than [max_cluster_size] mentions is returned as it
    is, and a list of more than [max_num_clusters] clusters keeps its
    number of clusters. *)
Theorem pad_clusters_no_truncation (self : CorefDataset)
    (cls : list (list (Z * Z))) :
  (∀ (i : nat) (cluster : list (Z * Z)),
     cls !! i = Some cluster →
     (∃ padding,
        pad_clusters NULL_ID_FOR_COREF self cls !! i = Some (cluster ++ padding))
     ∧ ((max_cluster_size self < len cluster)%Z →
        pad_clusters NULL_ID_FOR_COREF self cls !! i = Some cluster))
  ∧ ((max_num_clusters self < len cls)%Z →
     length (pad_clusters NULL_ID_FOR_COREF self cls) = length cls).
Proof.
  split.
  - intros i cluster Hi.
    assert (Hpad : pad_clusters NULL_ID_FOR_COREF self cls !! i
                   = Some (cluster ++
                             list_mul [(NULL_ID_FOR_COREF, NULL_ID_FOR_COREF)]
                               (max_cluster_size self - len cluster))).
    { unfold pad_clusters, pad_clusters_inside, pad_clusters_outside.
      rewrite lookup_map. by rewrite (lookup_app_l_Some _ _ _ _ Hi). }
    split; [by eexists|].
    intros Hbig. rewrite Hpad, list_mul_nonpos by lia. by rewrite app_nil_r.
  - intros Hbig.
    pose proof (len_pad_clusters self cls) as Hlen. unfold len in Hlen.
    unfold len in Hbig. lia.
Qed.

End Padding.

(** ** Determinism of a run *)

Section Determinism.

Variable T : Type.
Variable tokenize : T → string → list string * T.
Variable load_record : string → result record.

Hypothesis tokenize_deterministic : Stateful.deterministic tokenize.

Variable t0 : T.

Local Abbreviation tokenize_fn := (Stateful.tokenize_fn tokenize t0).
Local Abbreviation forget := Stateful.forget.

Lemma scan_word_forget (sc : word_scan) (t : T) (iw : nat * string) :
  (Stateful.scan_word tokenize (sc, t) iw).1 = scan_word tokenize_fn sc iw.
Proof.
  destruct iw as [idx word]. unfold Stateful.scan_word, scan_word, Stateful.tokenize_fn.
  rewrite (tokenize_deterministic t0 t word).
  by destruct (tokenize t word).
Qed.

Lemma scan_fold_forget (l : list (nat * string)) : ∀ sc t,
  (fold_left (Stateful.scan_word tokenize) l (sc, t)).1
  = fold_left (scan_word tokenize_fn) l sc.
Proof.
  induction l as [|iw l IH]; intros sc t; [done|].
  cbn [fold_left]. rewrite <- (scan_word_forget sc t iw).
  destruct (Stateful.scan_word tokenize (sc, t) iw) as [sc' t']. apply IH.
Qed.

Lemma scan_words_forget (words : list string) (t : T) :
  (Stateful.scan_words tokenize words t).1 = scan_words tokenize_fn words.
Proof. apply scan_fold_forget. Qed.

Lemma tokenize_example_forget (max_seq_length : Z)
    (acc : list tokenized_example * list Z * Z) (t : T) (ex : example) :
  forget (Stateful.tokenize_example tokenize max_seq_length (acc, t) ex)
  = tokenize_example tokenize_fn max_seq_length acc ex.
Proof.
  destruct acc as [[outs lens] n], ex as [[doc_key words] cls].
  unfold Stateful.tokenize_example, tokenize_example.
  rewrite <- (scan_words_forget words t).
  destruct (Stateful.scan_words tokenize words t) as [st t']. cbn [fst].
  destruct (too_long max_seq_length st); [done|].
  by destruct (remap_clusters st cls).
Qed.

Lemma tokenize_fold_forget (max_seq_length : Z) (exs : list example) :
  ∀ acc t,
  forget (result_fold (Stateful.tokenize_example tokenize max_seq_length) exs (acc, t))
  = result_fold (tokenize_example tokenize_fn max_seq_length) exs acc.
Proof.
  induction exs as [|ex exs IH]; intros acc t; [done|].
  cbn [result_fold]. rewrite <- (tokenize_example_forget max_seq_length acc t ex).
  destruct (Stateful.tokenize_example tokenize max_seq_length (acc, t) ex)
    as [e|[acc' t']]; [done|].
  cbn [bind Stateful.forget]. apply IH.
Qed.

(** A run over a deterministic tokenizer is the run over the function it
    computes, whatever state it starts from. *)
Lemma run_forget (file : list string) (max_seq_length : Z) (t : T) :
  Stateful.run tokenize load_record file max_seq_length t
  = __init__ tokenize_fn load_record file max_seq_length.
Proof.
  unfold Stateful.run, __init__.
  destruct (_parse_jsonlines load_record file) as [e|[[[exs m1] m2] m3]];
    [done|].
  cbn [bind]. unfold Stateful._tokenize, _tokenize.
  rewrite <- (tokenize_fold_forget max_seq_length exs ([], [], 0%Z) t).
  by destruct (result_fold _ exs (_, t)) as [e|[[[outs lens] n] t']].
Qed.

End Determinism.

(** C9. With a tokenizer whose subtokens for a word do not depend on its
    internal state, two runs of the parser and the aligner over the same
    file give the same result, from whatever states the tokenizer starts:
    the same dataset (examples, lengths, filtered count and the three
    maxima), or the same exception. *)
Theorem runs_agree (T : Type) (tokenize : T → string → list string * T)
    (load_record : string → result record)
    (file : list string) (max_seq_length : Z) (t1 t2 : T) :
  Stateful.deterministic tokenize →
  Stateful.run tokenize load_record file max_seq_length t1
  = Stateful.run tokenize load_record file max_seq_length t2.
Proof.
  intros Hdet.
  rewrite (run_forget T tokenize load_record Hdet t1 file max_seq_length t1).
  by rewrite (run_forget T tokenize load_record Hdet t1 file max_seq_length t2).
Qed.

(** ** The properties on concrete inputs *)

Lemma word_span_alignment_witness :
  let words := ["Hello"; "guys"; ""; "."] in
  let final := scan_words Sample.plural_split words in
  words !! 1 = Some "guys"
  ∧ word_idx_to_start_token_idx final !! 1%Z = Some 2%Z
  ∧ word_idx_to_end_token_idx final !! 1%Z = Some 3%Z
  ∧ take 2 (drop 1 (scan_token_ids final)) = ["guy"; "s"].
Proof.
  intros words final. split; [reflexivity|].
  destruct (word_span_alignment Sample.plural_split words 1 "guys" eq_refl)
    as (_ & Hstart & Hend & _ & Hslice & _).
  split; [exact Hstart|]. split; [exact Hend|exact Hslice].
Defined.

Lemma zero_expansion_span_witness :
  let words := ["Hello"; "guys"; ""; "."] in
  let final := scan_words Sample.plural_split words in
  words !! 2 = Some ""
  ∧ Sample.plural_split "" = []
  ∧ word_idx_to_start_token_idx final !! 2%Z = Some 4%Z
  ∧ word_idx_to_end_token_idx final !! 2%Z = Some 3%Z.
Proof.
  intros words final. split; [reflexivity|]. split; [reflexivity|].
  destruct (zero_expansion_span Sample.plural_split words 2 "" eq_refl eq_refl)
    as (_ & Hend & Hstart & _).
  split; [exact Hstart|exact Hend].
Defined.

Lemma cluster_remapping_witness :
  let cls := [[[0; 2]; [7; 8]]]%Z in
  let st := scan_words Sample.whole_word Sample.words in
  too_long (-1) st = false
  ∧ Forall (Forall is_pair) cls
  ∧ ¬ Exists (Exists (out_of_range (len Sample.words))) cls
  ∧ tokenize_example Sample.whole_word (-1) ([], [], 0%Z) ("nw/0", Sample.words, cls)
    = inr ([(("nw/0", end_token_idx_to_word_idx st),
             {| token_ids := scan_token_ids st;
                clusters := [[(1, 2); (8, 8)]]%Z |})],
           [12%Z], 0%Z).
Proof.
  intros cls st.
  assert (Hkeep : too_long (-1) st = false) by reflexivity.
  assert (Hpairs : Forall (Forall is_pair) cls)
    by (repeat constructor).
  assert (Hin : ¬ Exists (Exists (out_of_range (len Sample.words))) cls).
  { unfold cls. rewrite !Exists_cons, !Exists_nil. unfold out_of_range, len.
    simpl. lia. }
  split; [exact Hkeep|]. split; [exact Hpairs|]. split; [exact Hin|].
  destruct (cluster_remapping Sample.whole_word (-1) ([], [], 0%Z) "nw/0"
              Sample.words cls Hkeep Hpairs) as (_ & Hok & _).
  exact (Hok Hin).
Defined.

Lemma length_filter_witness :
  let ex : example := ("nw/0", Sample.words, [[[0; 2]; [7; 13]]]%Z) in
  (0 < 5)%Z
  ∧ (5 < subtoken_count Sample.whole_word ex)%Z
  ∧ tokenize_example Sample.whole_word 5 ([], [], 0%Z) ex = inr ([], [], 1%Z)
  ∧ ((-1) ≤ 0)%Z
  ∧ List.filter (exceeds Sample.whole_word (-1)) [ex] = [].
Proof.
  intros ex.
  destruct (length_filter Sample.whole_word 5) as [Hdrop _].
  destruct (length_filter Sample.whole_word (-1)) as [_ Hrun].
  destruct (Hrun [ex]) as (_ & _ & Hoff).
  split; [lia|]. split; [reflexivity|].
  split; [exact (Hdrop ([], [], 0%Z) ex ltac:(lia) ltac:(reflexivity))|].
  split; [lia|]. exact (proj2 (Hoff ltac:(lia))).
Defined.

Lemma filter_precedes_remapping_witness :
  let cls := [[[0; 2]; [7; 13]]]%Z in
  (0 < 5)%Z
  ∧ (5 < len (scan_token_ids (scan_words Sample.whole_word Sample.words)))%Z
  ∧ Exists (Exists (out_of_range (len Sample.words))) cls
  ∧ tokenize_example Sample.whole_word 5 ([], [], 0%Z) ("nw/0", Sample.words, cls)
    = inr ([], [], 1%Z)
  ∧ _tokenize Sample.whole_word 5 [("nw/0", Sample.words, cls)]
    = inr ([], [], 1%Z).
Proof.
  intros cls.
  split; [lia|]. split; [reflexivity|].
  split.
  { constructor. right. constructor. unfold out_of_range, len. simpl. lia. }
  exact (filter_precedes_remapping Sample.whole_word 5 ([], [], 0%Z) "nw/0"
           Sample.words cls ltac:(lia) ltac:(reflexivity)).
Defined.

Lemma john_smith_scenario_witness :
  (∀ w, length (Sample.whole_word w) = 1)
  ∧ ¬ (0 < -1 < 12)%Z
  ∧ ∃ owners toks,
      _tokenize Sample.whole_word (-1)
        [("nw/0", Sample.words, [[[0; 2]; [7; 8]]]%Z)]
      = inr ([(("nw/0", owners),
               {| token_ids := toks; clusters := [[(1, 2); (8, 8)]]%Z |})],
             [12%Z], 0%Z)
      ∧ len toks = 12%Z.
Proof.
  assert (Hone : ∀ w, length (Sample.whole_word w) = 1) by reflexivity.
  assert (Hmax : ¬ (0 < -1 < 12)%Z) by lia.
  split; [exact Hone|]. split; [exact Hmax|].
  exact (john_smith_scenario Sample.whole_word (-1) "nw/0" Hone Hmax).
Defined.

Lemma corpus_maxima_witness :
  let file := ["line 0"; "line 1"; "line 2"] in
  let docs := [Sample.doc; Sample.doc_no_clusters; Sample.doc_bad_span] in
  result_map Sample.load file = inr docs
  ∧ _parse_jsonlines Sample.load file
    = inr (map example_of docs, 3%Z, 2%Z, 2%Z)
  ∧ is_max_of 3 (map mention_count docs)
  ∧ is_max_of 2 (concat (map cluster_sizes docs))
  ∧ is_max_of 2 (map cluster_count docs).
Proof.
  intros file docs.
  assert (Hdocs : result_map Sample.load file = inr docs) by reflexivity.
  split; [exact Hdocs|].
  destruct (corpus_maxima Sample.load file docs Hdocs)
    as (m1 & m2 & m3 & cands & Hrun & H1 & H2 & H3 & E1 & _ & _ & E3 & _).
  assert (Hm : (m1, m2, m3) = (3, 2, 2)%Z).
  { assert (Hrun' : _parse_jsonlines Sample.load file
                    = inr (map example_of docs, 3%Z, 2%Z, 2%Z)) by reflexivity.
    rewrite Hrun in Hrun'. by injection Hrun' as -> -> ->. }
  injection Hm as -> -> ->.
  split; [exact Hrun|]. split; [exact H1|]. split; [exact H2|exact H3].
Defined.

Lemma padded_cluster_shape_witness :
  let cls := [[(1, 2)]]%Z in
  __init__ Sample.plural_split Sample.load ["line 0"; "line 1"] (-1)
  = inr Sample.built
  ∧ (len cls ≤ max_num_clusters Sample.built)%Z
  ∧ Forall (λ c, (len c ≤ max_cluster_size Sample.built)%Z) cls
  ∧ len (pad_clusters 0 Sample.built cls) = max_num_clusters Sample.built
  ∧ Forall (λ c, len c = max_cluster_size Sample.built)
      (pad_clusters 0 Sample.built cls).
Proof.
  intros cls.
  assert (Hself : __init__ Sample.plural_split Sample.load ["line 0"; "line 1"] (-1)
                  = inr Sample.built) by (vm_compute; reflexivity).
  assert (Hcount : (len cls ≤ max_num_clusters Sample.built)%Z)
    by (unfold len; simpl; lia).
  assert (Hfit : Forall (λ c, (len c ≤ max_cluster_size Sample.built)%Z) cls)
    by (repeat constructor; unfold len; simpl; lia).
  split; [exact Hself|]. split; [exact Hcount|]. split; [exact Hfit|].
  destruct (padded_cluster_shape Sample.plural_split Sample.load 0 _ _ _ Hself)
    as [Hone _].
  exact (Hone cls Hcount Hfit).
Defined.

(** C5 (counterexample). With [max_cluster_size = 2] and
    [max_num_clusters = 1], a list of three clusters whose first cluster has
    three mentions is not cut down: all three clusters are returned, the
    first with its three mentions. *)
Lemma pad_clusters_keeps_oversized :
  (max_num_clusters Sample.built < len Sample.large_clusters)%Z
  ∧ Exists (λ c, (max_cluster_size Sample.built < len c)%Z) Sample.large_clusters
  ∧ pad_clusters 0 Sample.built Sample.large_clusters
    = [[(1, 2); (8, 8); (11, 11)]; [(4, 4); (0, 0)]; [(5, 6); (9, 9)]]%Z
  ∧ len (pad_clusters 0 Sample.built Sample.large_clusters)
    ≠ max_num_clusters Sample.built
  ∧ ¬ Forall (λ c, (len c ≤ max_cluster_size Sample.built)%Z)
        (pad_clusters 0 Sample.built Sample.large_clusters).
Proof.
  split; [reflexivity|].
  split; [constructor; reflexivity|].
  split; [reflexivity|].
  split; [discriminate|].
  intros H. apply Forall_cons in H as [H _]. revert H. unfold len. simpl. lia.
Qed.

Lemma pad_clusters_no_truncation_witness :
  Sample.large_clusters !! 0 = Some [(1, 2); (8, 8); (11, 11)]%Z
  ∧ (max_cluster_size Sample.built < len [(1, 2); (8, 8); (11, 11)]%Z)%Z
  ∧ (max_num_clusters Sample.built < len Sample.large_clusters)%Z
  ∧ pad_clusters 0 Sample.built Sample.large_clusters !! 0
    = Some [(1, 2); (8, 8); (11, 11)]%Z
  ∧ length (pad_clusters 0 Sample.built Sample.large_clusters)
    = length Sample.large_clusters.
Proof.
  destruct (pad_clusters_no_truncation 0 Sample.built Sample.large_clusters)
    as [Hcluster Hlist].
  split; [reflexivity|]. split; [reflexivity|]. split; [reflexivity|].
  split.
  - exact (proj2 (Hcluster 0 _ eq_refl) ltac:(reflexivity)).
  - exact (Hlist ltac:(reflexivity)).
Defined.

Lemma runs_agree_witness :
  Stateful.deterministic Sample.counting
  ∧ Stateful.run Sample.counting Sample.load ["line 0"; "line 1"] (-1) 0
    = Stateful.run Sample.counting Sample.load ["line 0"; "line 1"] (-1) 7.
Proof.
  assert (Hdet : Stateful.deterministic Sample.counting)
    by (intros t1 t2 word; reflexivity).
  split; [exact Hdet|].
  exact (runs_agree nat Sample.counting Sample.load ["line 0"; "line 1"] (-1) 0 7
           Hdet).
Defined.

(** ** Further properties of the word loop *)

Section Spans.

Variable tokenize : string → list string.

Lemma emitted_le (words : list string) : ∀ k k',
  k ≤ k' → (emitted tokenize words k ≤ emitted tokenize words k')%Z.
Proof.
  induction words as [|w words IH]; intros k k' Hk.
  - unfold emitted. by rewrite !take_nil.
  - destruct k as [|k].
    + rewrite emitted_0. apply len_nonneg.
    + destruct k' as [|k']; [lia|].
      rewrite !emitted_cons. specialize (IH k k' ltac:(lia)). lia.
Qed.

Lemma emitted_length (words : list string) :
  emitted tokenize words (length words)
  = len (scan_token_ids (scan_words tokenize words)).
Proof. unfold emitted. by rewrite firstn_all, scan_words_token_ids. Qed.

Lemma emitted_bound (words : list string) (k : nat) :
  (0 ≤ emitted tokenize words k
   ≤ len (scan_token_ids (scan_words tokenize words)))%Z.
Proof.
  split; [apply len_nonneg|].
  rewrite <- emitted_length.
  destruct (decide (k ≤ length words)) as [Hk|Hk]; [by apply emitted_le|].
  unfold emitted. rewrite !take_ge by lia. done.
Qed.

(** The subtokens of the words [s .. e-1] as a slice of the subtokens of
    the document. *)
Lemma token_ids_range (words : list string) (s e : nat) :
  s ≤ e → e ≤ length words →
  take (Z.to_nat (emitted tokenize words e - emitted tokenize words s))
    (drop (Z.to_nat (emitted tokenize words s)) (concat (map tokenize words)))
  = concat (map tokenize (take (e - s) (drop s words))).
Proof.
  intros Hse He.
  assert (Hsplit : words = take s words ++ take (e - s) (drop s words) ++ drop e words).
  { rewrite <- (take_drop s words) at 1. f_equal.
    rewrite <- (take_drop (e - s) (drop s words)) at 1. f_equal.
    rewrite drop_drop. f_equal. lia. }
  assert (He' : emitted tokenize words e
                = (emitted tokenize words s
                   + len (concat (map tokenize (take (e - s) (drop s words)))))%Z).
  { unfold emitted at 1. replace e with (s + (e - s)) at 1 by lia.
    rewrite <- take_take_drop, map_app, concat_app, len_app. reflexivity. }
  rewrite He'. unfold emitted at 1 2 3.
  replace (len (concat (map tokenize (take s words)))
           + len (concat (map tokenize (take (e - s) (drop s words))))
           - len (concat (map tokenize (take s words))))%Z
    with (len (concat (map tokenize (take (e - s) (drop s words))))) by lia.
  unfold len. rewrite !Nat2Z.id.
  rewrite Hsplit at 3. rewrite !map_app, !concat_app.
  rewrite drop_app_length. by rewrite take_app_length.
Qed.

(** X1. The recorded spans tile the subtoken sequence: the span of the
    first word starts at 1, the span of each following word starts right
    after the end of the span before it, and the span of the last word ends
    at the number of subtokens of the document. *)
Theorem spans_tile (words : list string) :
  let st := scan_words tokenize words in
  (words ≠ [] → word_idx_to_start_token_idx st !! 0%Z = Some 1%Z)
  ∧ (∀ idx : nat, S idx < length words →
       ∃ last : Z,
         word_idx_to_end_token_idx st !! Z.of_nat idx = Some last
         ∧ word_idx_to_start_token_idx st !! Z.of_nat (S idx) = Some (last + 1)%Z)
  ∧ (∀ idx : nat, length words = S idx →
       word_idx_to_end_token_idx st !! Z.of_nat idx
       = Some (len (scan_token_ids st))).
Proof.
  intros st. split; [|split].
  - intros Hne. unfold st.
    rewrite scan_words_start_Z
      by (destruct words; [done|unfold len; simpl; lia]).
    reflexivity.
  - intros idx Hidx. exists (emitted tokenize words (S idx)). unfold st.
    rewrite scan_words_end by lia. by rewrite scan_words_start by lia.
  - intros idx Hlen. unfold st. rewrite scan_words_end by lia.
    by rewrite <- Hlen, emitted_length.
Qed.

(** X2. A mention [start, end] over the words [start .. end-1] of the
    document, with [0 <= start < end <= len(words)], is remapped without an
    exception to a pair [(first, last)] with
    [1 <= first <= last + 1 <= len(token_ids) + 1], and the subtokens at the
    positions [first .. last], counted with the start token in front, are
    the subtokens of the words of the mention, in order. *)
Theorem mention_span_covers_words (words : list string) (start end_ : Z) :
  (0 ≤ start < end_)%Z → (end_ ≤ len words)%Z →
  let st := scan_words tokenize words in
  ∃ first last : Z,
    remap_mention st [start; end_] = inr (first, last)
    ∧ (1 ≤ first ≤ last + 1)%Z
    ∧ (last ≤ len (scan_token_ids st))%Z
    ∧ take (Z.to_nat (last - first + 1))
        (drop (Z.to_nat (first - 1)) (scan_token_ids st))
      = concat (map tokenize
                  (take (Z.to_nat (end_ - start)) (drop (Z.to_nat start) words))).
Proof.
  intros Hse He st. unfold len in He.
  exists (emitted tokenize words (Z.to_nat start) + 1)%Z,
         (emitted tokenize words (Z.to_nat end_)).
  split; [|split; [|split]].
  - unfold remap_mention, st.
    rewrite (dict_get_Some _ _ _ (scan_words_start_Z tokenize words start
                                    ltac:(unfold len; lia))).
    cbn [bind].
    rewrite (dict_get_Some _ _ _ (scan_words_end_Z tokenize words (end_ - 1)
                                    ltac:(unfold len; lia))).
    cbn [bind ret]. do 3 f_equal. lia.
  - pose proof (emitted_bound words (Z.to_nat start)).
    pose proof (emitted_le words (Z.to_nat start) (Z.to_nat end_) ltac:(lia)).
    lia.
  - apply emitted_bound.
  - unfold st. rewrite scan_words_token_ids.
    replace (emitted tokenize words (Z.to_nat end_)
             - (emitted tokenize words (Z.to_nat start) + 1) + 1)%Z
      with (emitted tokenize words (Z.to_nat end_)
            - emitted tokenize words (Z.to_nat start))%Z by lia.
    replace (emitted tokenize words (Z.to_nat start) + 1 - 1)%Z
      with (emitted tokenize words (Z.to_nat start)) by lia.
    rewrite token_ids_range by lia. do 3 f_equal. lia.
Qed.

Lemma length_owners (words : list string) : ∀ n,
  length (owners tokenize n words) = length (concat (map tokenize words)).
Proof.
  induction words as [|w words IH]; intros n; [done|].
  simpl. by rewrite !length_app, length_replicate, IH.
Qed.

(** X3. The reverse map has one entry for the start token, which names
    word 0, and one for each subtoken; the entry at a position
    [1 <= p <= len(token_ids)] is the index of a word of the document whose
    recorded span contains [p]; and the entries never decrease. *)
Theorem reverse_map_consistent (words : list string) :
  let st := scan_words tokenize words in
  length (end_token_idx_to_word_idx st) = S (length (scan_token_ids st))
  ∧ end_token_idx_to_word_idx st !! 0 = Some 0%Z
  ∧ (∀ p : nat, 1 ≤ p ≤ length (scan_token_ids st) →
       ∃ (idx : nat) (first last : Z),
         idx < length words
         ∧ end_token_idx_to_word_idx st !! p = Some (Z.of_nat idx)
         ∧ word_idx_to_start_token_idx st !! Z.of_nat idx = Some first
         ∧ word_idx_to_end_token_idx st !! Z.of_nat idx = Some last
         ∧ (first ≤ Z.of_nat p ≤ last)%Z)
  ∧ (∀ (p q : nat) (i j : Z), p ≤ q →
       end_token_idx_to_word_idx st !! p = Some i →
       end_token_idx_to_word_idx st !! q = Some j →
       (i ≤ j)%Z).
Proof.
  intros st. unfold st. rewrite scan_words_owners, scan_words_token_ids.
  split; [simpl; by rewrite length_owners|]. split; [done|]. split.
  - intros p [Hp1 Hp2].
    destruct (lookup_lt_is_Some_2 (owners tokenize 0 words) (p - 1)) as [k Hk];
      [rewrite length_owners; lia|].
    pose proof Hk as Hk'. apply owners_lookup in Hk' as (i & Hi & -> & Hlo & Hhi).
    exists i, (emitted tokenize words i + 1)%Z, (emitted tokenize words (S i)).
    split; [done|]. split.
    { rewrite lookup_cons_ne_0 by lia. replace (pred p) with (p - 1) by lia. done. }
    split; [by apply scan_words_start|]. split; [by apply scan_words_end|]. lia.
  - assert (Hnn : ∀ p i, (0%Z :: owners tokenize 0 words) !! p = Some i → (0 ≤ i)%Z).
    { intros [|p] i; simpl; [by intros [= <-]|].
      intros (k & _ & -> & _)%owners_lookup. lia. }
    intros p q i j Hpq Hp Hq. destruct p as [|p].
    + injection Hp as <-. by eapply Hnn.
    + destruct q as [|q]; [lia|]. simpl in Hp, Hq.
      apply owners_lookup in Hp as (a & _ & -> & Hlo & Hhi).
      apply owners_lookup in Hq as (b & _ & -> & Hlo' & Hhi').
      destruct (decide (a ≤ b)) as [|Hba]; [lia|].
      pose proof (emitted_le words (S b) a ltac:(lia)). lia.
Qed.

End Spans.

(** ** Further properties of [_tokenize] *)

Section Runs.

Variable tokenize : string → list string.

Lemma result_map_Forall2 {A B : Type} (f : A → result B) (l : list A) :
  ∀ ys, result_map f l = inr ys → Forall2 (λ x y, f x = inr y) l ys.
Proof.
  induction l as [|x l IH]; intros ys; simpl.
  - intros [= <-]. constructor.
  - destruct (f x) as [e|y] eqn:Hx; [done|]. simpl.
    destruct (result_map f l) as [e|ys']; [done|]. simpl. intros [= <-].
    constructor; [done|by apply IH].
Qed.

(** A comprehension raises the exception of its first failing element. *)
Lemma result_map_inl {A B : Type} (f : A → result B) (l : list A) (e : exn) :
  result_map f l = inl e ↔
  ∃ l1 x l2, l = l1 ++ x :: l2
             ∧ Forall (λ y, ∃ z, f y = inr z) l1 ∧ f x = inl e.
Proof.
  induction l as [|x l IH]; simpl.
  - split; [done|]. intros (l1 & y & l2 & Hl & _). by destruct l1.
  - destruct (f x) as [e'|y] eqn:Hx; simpl.
    + split.
      * intros [= ->]. exists [], x, l. by repeat split.
      * intros (l1 & y & l2 & Hl & Hok & Hy). destruct l1 as [|z l1].
        -- injection Hl as <- <-. congruence.
        -- injection Hl as <- ->. apply Forall_cons in Hok as [[z' Hz] _].
           congruence.
    + destruct (result_map f l) as [e'|ys] eqn:Hl; simpl.
      * split.
        -- intros [= ->]. destruct (proj1 IH eq_refl) as (l1 & z & l2 & -> & Hok & Hz).
           exists (x :: l1), z, l2. split; [done|]. split; [|done].
           constructor; [by eexists|done].
        -- intros (l1 & z & l2 & Hl' & Hok & Hz). destruct l1 as [|z' l1].
           ++ injection Hl' as <- <-. congruence.
           ++ injection Hl' as <- ->. apply Forall_cons in Hok as [_ Hok].
              apply IH. by exists l1, z, l2.
      * split; [done|].
        intros (l1 & z & l2 & Hl' & Hok & Hz). destruct l1 as [|z' l1].
        -- injection Hl' as <- <-. congruence.
        -- injection Hl' as <- ->. apply Forall_cons in Hok as [_ Hok].
           assert (H : inr ys = inl e) by (apply IH; by exists l1, z, l2).
           discriminate H.
Qed.

Lemma result_map_app {A B : Type} (f : A → result B) (l k : list A) :
  result_map f (l ++ k)
  = do ys <- result_map f l in do zs <- result_map f k in ret (ys ++ zs).
Proof.
  induction l as [|x l IH]; simpl.
  - by destruct (result_map f k).
  - destruct (f x); [done|]. simpl. rewrite IH.
    destruct (result_map f l); [done|]. simpl.
    by destruct (result_map f k).
Qed.

Lemma length_filter_partition {A : Type} (p : A → bool) (l : list A) :
  length (List.filter (λ x, negb (p x)) l) + length (List.filter p l) = length l.
Proof.
  induction l as [|x l IH]; [done|]. simpl. destruct (p x); simpl; lia.
Qed.

Lemma Forall2_length_eq {A B : Type} (R : A → B → Prop) (l : list A) (k : list B) :
  Forall2 R l k → length l = length k.
Proof. induction 1; simpl; congruence. Qed.

(** What a successful run returns, in terms of the documents kept. *)
Lemma tokenize_inr (max_seq_length : Z) (exs : list example)
    (outs : list tokenized_example) (lens : list Z) (n : Z) :
  _tokenize tokenize max_seq_length exs = inr (outs, lens, n) →
  Forall2 (λ ex o, aligned tokenize ex = inr o)
    (List.filter (λ ex, negb (exceeds tokenize max_seq_length ex)) exs) outs
  ∧ lens = map (λ o : tokenized_example, len (token_ids o.2)) outs
  ∧ n = len (List.filter (exceeds tokenize max_seq_length) exs).
Proof.
  unfold _tokenize. rewrite tokenize_loop.
  destruct (result_map _ _) as [e|kept] eqn:Hkept; [done|].
  simpl. intros [= <- <- <-].
  split; [by apply result_map_Forall2|]. split; [done|lia].
Qed.

(** X4. When [_tokenize] returns, the length list has one entry per
    tokenized example, and every input document is either among the
    tokenized examples or counted as filtered:
    [len(coref_examples) + num_examples_filtered = len(examples)]. *)
Theorem tokenize_accounts_for_every_document (max_seq_length : Z)
    (exs : list example) (outs : list tokenized_example) (lens : list Z) (n : Z) :
  _tokenize tokenize max_seq_length exs = inr (outs, lens, n) →
  len lens = len outs ∧ (len outs + n = len exs)%Z ∧ (0 ≤ n)%Z.
Proof.
  intros (Hkept & -> & ->)%tokenize_inr.
  apply Forall2_length_eq in Hkept.
  pose proof (length_filter_partition (exceeds tokenize max_seq_length) exs).
  unfold len. rewrite length_map. lia.
Qed.

Lemma Forall2_transfer {A B : Type} (R : A → B → Prop) (P : A → Prop)
    (Q : B → Prop) (l : list A) (k : list B) :
  (∀ x y, R x y → P x → Q y) → Forall2 R l k → Forall P l → Forall Q k.
Proof.
  intros HR. induction 1 as [|x y l k Hxy _ IH]; [constructor|].
  intros [Hx Hl]%Forall_cons. constructor; [by eapply HR|by apply IH].
Qed.

Lemma filter_kept_Forall (max_seq_length : Z) (exs : list example) :
  Forall (λ ex, ex ∈ exs ∧ exceeds tokenize max_seq_length ex = false)
    (List.filter (λ ex, negb (exceeds tokenize max_seq_length ex)) exs).
Proof.
  apply Forall_forall. intros ex. rewrite !list_elem_of_In, filter_In.
  intros [Hin H]. split; [done|]. by apply negb_true_iff in H.
Qed.

Lemma aligned_fits (max_seq_length : Z) (ex : example) (o : tokenized_example) :
  (0 < max_seq_length)%Z →
  exceeds tokenize max_seq_length ex = false →
  aligned tokenize ex = inr o →
  (len (token_ids o.2) ≤ max_seq_length)%Z.
Proof.
  intros Hpos Hex [_ ->]%aligned_inr.
  unfold exceeds, subtoken_count in Hex.
  apply andb_false_iff in Hex as [Hex|Hex]; apply Z.ltb_ge in Hex; lia.
Qed.

(** X5. With a positive [max_seq_length], every tokenized example that
    [_tokenize] returns has at most [max_seq_length] subtokens, and so has
    every entry of the length list. *)
Theorem tokenized_examples_fit (max_seq_length : Z)
    (exs : list example) (outs : list tokenized_example) (lens : list Z) (n : Z) :
  (0 < max_seq_length)%Z →
  _tokenize tokenize max_seq_length exs = inr (outs, lens, n) →
  Forall (λ o : tokenized_example, (len (token_ids o.2) ≤ max_seq_length)%Z) outs
  ∧ Forall (λ l, (0 ≤ l ≤ max_seq_length)%Z) lens.
Proof.
  intros Hpos (Hkept & -> & _)%tokenize_inr.
  assert (Hfit : Forall (λ o : tokenized_example,
                           (len (token_ids o.2) ≤ max_seq_length)%Z) outs).
  { eapply Forall2_transfer; [|exact Hkept|apply filter_kept_Forall].
    intros ex o Ho [_ Hex]. by eapply aligned_fits. }
  split; [done|].
  apply Forall_forall. intros l. rewrite list_elem_of_In, in_map_iff.
  intros (o & <- & Ho). rewrite Forall_forall in Hfit.
  split; [apply len_nonneg|]. by apply Hfit, list_elem_of_In.
Qed.

Lemma tokenize_fold_inl (max_seq_length : Z) (exs : list example) (e : exn) :
  ∀ acc,
  result_fold (tokenize_example tokenize max_seq_length) exs acc = inl e ↔
  ∃ l1 ex l2,
    exs = l1 ++ ex :: l2
    ∧ Forall (λ y, exceeds tokenize max_seq_length y = true
                   ∨ ∃ o, aligned tokenize y = inr o) l1
    ∧ exceeds tokenize max_seq_length ex = false
    ∧ aligned tokenize ex = inl e.
Proof.
  induction exs as [|x exs IH]; intros acc.
  - split; [done|]. intros (l1 & y & l2 & Hl & _). by destruct l1.
  - cbn [result_fold]. destruct (exceeds tokenize max_seq_length x) eqn:Hx.
    + rewrite tokenize_example_filtered by done. cbn [bind].
      destruct (IH (acc.1.1, acc.1.2, (acc.2 + 1)%Z)) as [IH1 IH2]. split.
      * intros (l1 & y & l2 & -> & Hok & Hy & He)%IH1.
        exists (x :: l1), y, l2. split; [done|]. split; [|done].
        constructor; [by left|done].
      * intros (l1 & y & l2 & Hl & Hok & Hy & He). destruct l1 as [|z l1].
        -- injection Hl as <- <-. congruence.
        -- injection Hl as <- ->. apply Forall_cons in Hok as [_ Hok].
           apply IH2. by exists l1, y, l2.
    + rewrite tokenize_example_kept by done.
      destruct (aligned tokenize x) as [e'|o] eqn:Ho; cbn [bind].
      * split.
        -- intros [= ->]. exists [], x, exs. by repeat split.
        -- intros (l1 & y & l2 & Hl & Hok & Hy & He). destruct l1 as [|z l1].
           ++ injection Hl as <- <-. congruence.
           ++ injection Hl as <- ->. apply Forall_cons in Hok as [[Hz|[o Hz]] _];
                congruence.
      * unfold ret.
        destruct (IH (acc.1.1 ++ [o], acc.1.2 ++ [len (token_ids o.2)], acc.2))
          as [IH1 IH2].
        split.
        -- intros (l1 & y & l2 & -> & Hok & Hy & He)%IH1.
           exists (x :: l1), y, l2. split; [done|]. split; [|done].
           constructor; [right; by eexists|done].
        -- intros (l1 & y & l2 & Hl & Hok & Hy & He). destruct l1 as [|z l1].
           ++ injection Hl as <- <-. congruence.
           ++ injection Hl as <- ->. apply Forall_cons in Hok as [_ Hok].
              apply IH2. by exists l1, y, l2.
Qed.

(** X6. [_tokenize] raises an exception exactly when some document that
    passes the length test fails to be remapped while every document before
    it is filtered or remapped; the exception is the one of that document,
    and nothing of the documents processed before it is returned. *)
Theorem tokenize_raises_first_failure (max_seq_length : Z)
    (exs : list example) (e : exn) :
  _tokenize tokenize max_seq_length exs = inl e ↔
  ∃ l1 ex l2,
    exs = l1 ++ ex :: l2
    ∧ Forall (λ y, exceeds tokenize max_seq_length y = true
                   ∨ ∃ o, aligned tokenize y = inr o) l1
    ∧ exceeds tokenize max_seq_length ex = false
    ∧ aligned tokenize ex = inl e.
Proof. apply tokenize_fold_inl. Qed.

Lemma result_fold_app {A B : Type} (f : A → B → result A) (l k : list B) :
  ∀ a, result_fold f (l ++ k) a = do a' <- result_fold f l a in result_fold f k a'.
Proof.
  induction l as [|x l IH]; intros a; [done|].
  simpl. destruct (f a x); [done|]. simpl. apply IH.
Qed.

Lemma filter_app_eq {A : Type} (p : A → bool) (l k : list A) :
  List.filter p (l ++ k) = List.filter p l ++ List.filter p k.
Proof.
  induction l as [|x l IH]; [done|]. simpl. destruct (p x); simpl; by rewrite IH.
Qed.

(** X7. Tokenizing the concatenation of two lists of documents is
    tokenizing each and concatenating: the examples and the lengths are
    appended, the filtered counts are added, and an exception of the first
    list comes before one of the second. *)
Theorem tokenize_app (max_seq_length : Z) (exs1 exs2 : list example) :
  _tokenize tokenize max_seq_length (exs1 ++ exs2)
  = do (outs1, lens1, n1) <- _tokenize tokenize max_seq_length exs1 in
    do (outs2, lens2, n2) <- _tokenize tokenize max_seq_length exs2 in
    ret (outs1 ++ outs2, lens1 ++ lens2, (n1 + n2)%Z).
Proof.
  unfold _tokenize. rewrite !tokenize_loop, !filter_app_eq, result_map_app.
  destruct (result_map _ (List.filter _ exs1)) as [e|kept1]; [done|].
  cbn [bind ret].
  destruct (result_map _ (List.filter _ exs2)) as [e|kept2]; [done|].
  cbn [bind ret app]. rewrite map_app, len_app. unfold ret. do 2 f_equal; lia.
Qed.

Lemma remap_clusters_arity (st : word_scan) (cls : list (list mention)) :
  Forall (Forall (λ m, ¬ is_pair m)) cls →
  Exists (λ cluster, cluster ≠ []) cls →
  remap_clusters st cls = inl ValueError.
Proof.
  unfold remap_clusters. induction 1 as [|cluster cls Hc _ IH]; intros Hex.
  - inversion Hex.
  - cbn [result_map]. destruct cluster as [|m cluster].
    + cbn [result_map bind ret]. rewrite IH; [done|].
      apply Exists_cons in Hex as [Hex|Hex]; done.
    + apply Forall_cons in Hc as [Hm _]. cbn [result_map].
      by rewrite (remap_mention_arity st m Hm).
Qed.

(** X8. For a document that passes the length test, has at least one
    mention, and none of whose mentions has exactly two entries (such as
    the three-entry mentions that the comment in [_parse_jsonlines]
    describes), the loop body raises [ValueError]. *)
Theorem mentions_of_wrong_arity_raise (max_seq_length : Z)
    (acc : list tokenized_example * list Z * Z)
    (doc_key : string) (words : list string) (cls : list (list mention)) :
  too_long max_seq_length (scan_words tokenize words) = false →
  Forall (Forall (λ m, ¬ is_pair m)) cls →
  Exists (λ cluster, cluster ≠ []) cls →
  tokenize_example tokenize max_seq_length acc (doc_key, words, cls)
  = inl ValueError.
Proof.
  intros Hkeep Harity Hsome. destruct acc as [[outs lens] n].
  unfold tokenize_example. rewrite Hkeep.
  by rewrite remap_clusters_arity.
Qed.

Lemma result_map_length {A B : Type} (f : A → result B) (l : list A) (ys : list B) :
  result_map f l = inr ys → length ys = length l.
Proof.
  intros H%result_map_Forall2. symmetry. by eapply Forall2_length_eq.
Qed.

Lemma remap_clusters_structure (st : word_scan) (cls : list (list mention))
    (new_clusters : list (list (Z * Z))) :
  remap_clusters st cls = inr new_clusters →
  map length new_clusters = map length cls.
Proof.
  unfold remap_clusters. intros H%result_map_Forall2.
  induction H as [|c c' cls cls' Hc _ IH]; [done|].
  simpl. rewrite IH. f_equal. by eapply result_map_length.
Qed.

Lemma start_index_bounds (words : list string) (k first : Z) :
  word_idx_to_start_token_idx (scan_words tokenize words) !! k = Some first →
  (1 ≤ first ≤ len (scan_token_ids (scan_words tokenize words)) + 1)%Z.
Proof.
  destruct (decide (0 ≤ k < len words)%Z) as [Hk|Hk].
  - rewrite scan_words_start_Z by done. intros [= <-].
    pose proof (emitted_bound tokenize words (Z.to_nat k)). lia.
  - rewrite scan_words_start_None by lia. done.
Qed.

Lemma end_index_bounds (words : list string) (k last : Z) :
  word_idx_to_end_token_idx (scan_words tokenize words) !! k = Some last →
  (0 ≤ last ≤ len (scan_token_ids (scan_words tokenize words)))%Z.
Proof.
  destruct (decide (0 ≤ k < len words)%Z) as [Hk|Hk].
  - rewrite scan_words_end_Z by done. intros [= <-].
    apply emitted_bound.
  - rewrite scan_words_end_None by lia. done.
Qed.

Lemma dict_get_inr (d : gmap Z Z) (k v : Z) :
  dict_get d k = inr v → d !! k = Some v.
Proof. unfold dict_get. destruct (d !! k); [by intros [= ->]|done]. Qed.

Lemma remap_mention_bounds (words : list string) (m : mention) (first last : Z) :
  remap_mention (scan_words tokenize words) m = inr (first, last) →
  (1 ≤ first ≤ len (scan_token_ids (scan_words tokenize words)) + 1)%Z
  ∧ (0 ≤ last ≤ len (scan_token_ids (scan_words tokenize words)))%Z.
Proof.
  destruct m as [|start [|end_ [|? ?]]]; try done. unfold remap_mention.
  destruct (dict_get _ start) as [e|s] eqn:Hs; [done|]. cbn [bind].
  destruct (dict_get _ (end_ - 1)%Z) as [e|l] eqn:Hl; [done|]. cbn [bind ret].
  intros [= <- <-]. split.
  - by eapply start_index_bounds, dict_get_inr.
  - by eapply end_index_bounds, dict_get_inr.
Qed.

Lemma remap_clusters_bounds (words : list string) (cls : list (list mention))
    (new_clusters : list (list (Z * Z))) :
  remap_clusters (scan_words tokenize words) cls = inr new_clusters →
  Forall (Forall (λ m : Z * Z,
            (1 ≤ m.1 ≤ len (scan_token_ids (scan_words tokenize words)) + 1)%Z
            ∧ (0 ≤ m.2 ≤ len (scan_token_ids (scan_words tokenize words)))%Z))
    new_clusters.
Proof.
  unfold remap_clusters. intros H%result_map_Forall2.
  induction H as [|c c' cls cls' Hc _ IH]; constructor; [|done].
  apply result_map_Forall2 in Hc. clear IH.
  induction Hc as [|m [first last] c c' Hm _ IH]; constructor; [|done].
  by apply remap_mention_bounds in Hm.
Qed.

(** X9. The tokenized example of a document has the subtokens of its words
    and the clusters of the document remapped one for one: as many clusters,
    each with as many mentions. Every remapped mention [(first, last)] has
    [1 <= first <= len(token_ids) + 1] and [0 <= last <= len(token_ids)]; so
    when [NULL_ID_FOR_COREF < 1] no remapped mention is the pair the padding
    uses. *)
Theorem remapped_clusters_keep_shape (ex : example) (o : tokenized_example)
    (NULL_ID_FOR_COREF : Z) :
  aligned tokenize ex = inr o →
  token_ids o.2 = concat (map tokenize ex.1.2)
  ∧ map length (clusters o.2) = map length ex.2
  ∧ Forall (Forall (λ m : Z * Z,
              (1 ≤ m.1 ≤ len (token_ids o.2) + 1)%Z
              ∧ (0 ≤ m.2 ≤ len (token_ids o.2))%Z
              ∧ ((NULL_ID_FOR_COREF < 1)%Z
                 → m ≠ (NULL_ID_FOR_COREF, NULL_ID_FOR_COREF))))
      (clusters o.2).
Proof.
  intros Ho. split; [exact (proj2 (aligned_inr tokenize ex o Ho))|].
  destruct ex as [[doc_key words] cls]. unfold aligned in Ho.
  destruct (remap_clusters _ cls) as [e|new_clusters] eqn:Hnew; [done|].
  cbn [bind ret] in Ho. injection Ho as <-. cbn [snd clusters token_ids].
  split; [exact (remap_clusters_structure _ _ _ Hnew)|].
  apply remap_clusters_bounds in Hnew.
  eapply Forall_impl; [exact Hnew|]. intros c Hc.
  eapply Forall_impl; [exact Hc|]. intros [first last] [H1 H2]. simpl in *.
  split; [done|]. split; [done|]. intros Hnull [= -> _]. lia.
Qed.

End Runs.

(** ** Further properties of [_parse_jsonlines] *)

Section Corpus.

Variable load_record : string → result record.

Lemma parse_line_explicit (acc : list example * Z * Z * Z) (line : string)
    (d : record) :
  load_record line = inr d →
  parse_line load_record acc line
  = inr (acc.1.1.1 ++ [example_of d],
         Z.max acc.1.1.2 (mention_count d),
         Z.max acc.1.2 (doc_cluster_max d),
         Z.max acc.2 (cluster_count d)).
Proof.
  intros Hd. destruct acc as [[[exs m1] m2] m3].
  unfold parse_line. rewrite Hd. cbn [bind fst snd].
  unfold flatten_list_of_lists, mention_count, cluster_count, doc_cluster_max,
    example_of.
  rewrite len_concat_sum. by destruct (r_clusters d).
Qed.

Lemma parse_line_inl (acc : list example * Z * Z * Z) (line : string) (e : exn) :
  load_record line = inl e → parse_line load_record acc line = inl e.
Proof.
  intros Hd. destruct acc as [[[exs m1] m2] m3].
  unfold parse_line. by rewrite Hd.
Qed.

Lemma parse_fold_explicit (file : list string) : ∀ docs exs m1 m2 m3,
  result_map load_record file = inr docs →
  result_fold (parse_line load_record) file (exs, m1, m2, m3)
  = inr (exs ++ map example_of docs,
         fold_left Z.max (map mention_count docs) m1,
         fold_left Z.max (map doc_cluster_max docs) m2,
         fold_left Z.max (map cluster_count docs) m3).
Proof.
  induction file as [|line file IH]; intros docs exs m1 m2 m3 Hdocs.
  - injection Hdocs as <-. simpl. by rewrite app_nil_r.
  - cbn [result_map] in Hdocs.
    destruct (load_record line) as [e|d] eqn:Hd; [done|].
    destruct (result_map load_record file) as [e|docs'] eqn:Hdocs'; [done|].
    injection Hdocs as <-.
    cbn [result_fold]. rewrite (parse_line_explicit _ _ _ Hd). cbn [bind fst snd].
    rewrite (IH docs') by done. simpl. by rewrite <- app_assoc.
Qed.

Lemma parse_fold_inl (file : list string) (e : exn) : ∀ acc,
  result_map load_record file = inl e →
  result_fold (parse_line load_record) file acc = inl e.
Proof.
  induction file as [|line file IH]; intros acc Hfile; [done|].
  cbn [result_map] in Hfile. cbn [result_fold].
  destruct (load_record line) as [e'|d] eqn:Hd.
  - injection Hfile as ->. by rewrite (parse_line_inl _ _ _ Hd).
  - rewrite (parse_line_explicit _ _ _ Hd). cbn [bind].
    apply IH. by destruct (result_map load_record file).
Qed.

(** The parser succeeds exactly when every line decodes. *)
Lemma parse_jsonlines_cases (file : list string) :
  (∃ e, result_map load_record file = inl e
        ∧ _parse_jsonlines load_record file = inl e)
  ∨ (∃ docs, result_map load_record file = inr docs
             ∧ _parse_jsonlines load_record file
               = inr (map example_of docs,
                      fold_left Z.max (map mention_count docs) (-1)%Z,
                      fold_left Z.max (map doc_cluster_max docs) (-1)%Z,
                      fold_left Z.max (map cluster_count docs) (-1)%Z)).
Proof.
  destruct (result_map load_record file) as [e|docs] eqn:Hfile.
  - left. exists e. split; [done|]. by apply parse_fold_inl.
  - right. exists docs. split; [done|].
    unfold _parse_jsonlines. by rewrite (parse_fold_explicit file docs).
Qed.

(** X10. [_parse_jsonlines] raises an exception exactly when some line
    fails to decode while every line before it decodes; the exception is the
    one of that line, and no example of the lines before it is returned. *)
Theorem parse_raises_first_failure (file : list string) (e : exn) :
  _parse_jsonlines load_record file = inl e ↔
  ∃ l1 line l2,
    file = l1 ++ line :: l2
    ∧ Forall (λ y, ∃ d, load_record y = inr d) l1
    ∧ load_record line = inl e.
Proof.
  rewrite <- result_map_inl.
  destruct (parse_jsonlines_cases file) as [(e' & -> & ->)|(docs & -> & ->)];
    split; congruence.
Qed.

Lemma doc_cluster_max_spec (d : record) :
  (0 ≤ doc_cluster_max d)%Z
  ∧ (∀ c, c ∈ r_clusters d → (len c ≤ doc_cluster_max d)%Z)
  ∧ (doc_cluster_max d ≤ mention_count d)%Z.
Proof.
  unfold doc_cluster_max, mention_count.
  destruct (r_clusters d) as [|cluster rest].
  - split; [done|]. split; [|done]. intros c Hc. by apply elem_of_nil in Hc.
  - destruct (py_max_is_max (len cluster) (map len rest)) as [Hin Hub].
    split; [|split].
    + transitivity (len cluster); [apply len_nonneg|].
      apply Hub, elem_of_cons. by left.
    + intros c Hc. apply Hub.
      change (len cluster :: map len rest) with (map len (cluster :: rest)).
      apply list_elem_of_In, in_map, list_elem_of_In, Hc.
    + change (len cluster :: map len rest) with (map len (cluster :: rest)) in Hin.
      revert Hin. generalize (py_max (len cluster) (map len rest)) as m.
      generalize (cluster :: rest) as cls. intros cls m.
      induction cls as [|c cls IH]; intros Hin; [by apply elem_of_nil in Hin|].
      cbn [map fold_right].
      assert (Hsum : (0 ≤ fold_right Z.add 0 (map len cls))%Z).
      { rewrite <- len_concat_sum. apply len_nonneg. }
      apply elem_of_cons in Hin as [->|Hin]; [lia|].
      specialize (IH Hin). pose proof (len_nonneg c). lia.
Qed.

Lemma mention_count_le (d : record) :
  (mention_count d ≤ cluster_count d * doc_cluster_max d)%Z.
Proof.
  destruct (doc_cluster_max_spec d) as (Hnn & Hub & _).
  unfold mention_count, cluster_count. revert Hub.
  generalize (doc_cluster_max d) (r_clusters d) Hnn. intros m cls Hm Hub.
  induction cls as [|c cls IH]; [done|].
  assert (Hc : (len c ≤ m)%Z) by (apply Hub, elem_of_cons; by left).
  assert (IH' : (fold_right Z.add 0 (map len cls) ≤ len cls * m)%Z).
  { apply IH. intros c' Hc'. apply Hub, elem_of_cons. by right. }
  cbn [map fold_right].
  replace (len (c :: cls)) with (len cls + 1)%Z by (unfold len; simpl; lia).
  rewrite Z.mul_add_distr_r. lia.
Qed.

Lemma fold_max_init (xs : list Z) : ∀ a,
  (-1 ≤ a)%Z →
  fold_left Z.max xs a = Z.max a (fold_left Z.max xs (-1)%Z).
Proof.
  induction xs as [|x xs IH]; intros a Ha; simpl; [lia|].
  rewrite (IH (Z.max a x)) by lia.
  destruct (decide (-1 ≤ x)%Z) as [Hx|Hx].
  - rewrite (IH (Z.max (-1) x)) by lia. lia.
  - replace (Z.max (-1) x) with (-1)%Z by lia.
    replace (Z.max a x) with a by lia. done.
Qed.

Lemma fold_max_in_range (xs : list Z) :
  Forall (λ x, (0 ≤ x)%Z) xs →
  (xs = [] ∧ fold_left Z.max xs (-1)%Z = (-1)%Z)
  ∨ (xs ≠ [] ∧ fold_left Z.max xs (-1)%Z ∈ xs
     ∧ ∀ x, x ∈ xs → (0 ≤ x ≤ fold_left Z.max xs (-1))%Z).
Proof.
  intros Hnn. pose proof (fold_max_is_max xs Hnn) as Hmax.
  destruct xs as [|x xs]; [by left|]. right.
  destruct Hmax as [Hin Hub]. split; [done|]. split; [done|].
  intros y Hy. rewrite Forall_forall in Hnn. split; [by apply Hnn|by apply Hub].
Qed.

Lemma Forall_map_nonneg {A : Type} (f : A → Z) (l : list A) :
  (∀ x, (0 ≤ f x)%Z) → Forall (λ x, (0 ≤ x)%Z) (map f l).
Proof.
  intros Hf. apply Forall_forall. intros x.
  rewrite list_elem_of_In, in_map_iff. intros (y & <- & _). apply Hf.
Qed.

Lemma cluster_count_nonneg (d : record) : (0 ≤ cluster_count d)%Z.
Proof. apply len_nonneg. Qed.

Lemma doc_cluster_max_nonneg (d : record) : (0 ≤ doc_cluster_max d)%Z.
Proof. apply doc_cluster_max_spec. Qed.

(** What a successful parse returns, over the decoded documents. *)
Lemma parse_jsonlines_inr (file : list string) (exs : list example) (m1 m2 m3 : Z) :
  _parse_jsonlines load_record file = inr (exs, m1, m2, m3) →
  ∃ docs,
    result_map load_record file = inr docs
    ∧ length docs = length file
    ∧ exs = map example_of docs
    ∧ m1 = fold_left Z.max (map mention_count docs) (-1)%Z
    ∧ m2 = fold_left Z.max (map doc_cluster_max docs) (-1)%Z
    ∧ m3 = fold_left Z.max (map cluster_count docs) (-1)%Z.
Proof.
  intros Hparse.
  destruct (parse_jsonlines_cases file) as [(e & _ & He)|(docs & Hdocs & Hrun)];
    [congruence|].
  rewrite Hrun in Hparse. injection Hparse as <- <- <- <-.
  exists docs. split; [done|]. split; [|done].
  by apply result_map_length in Hdocs.
Qed.

Lemma fold_max_elem_le (xs : list Z) (x : Z) :
  x ∈ xs → (x ≤ fold_left Z.max xs (-1)%Z)%Z.
Proof. apply fold_max_upper. Qed.

Lemma maxima_bound_doc (docs : list record) (d : record) :
  d ∈ docs →
  (mention_count d ≤ fold_left Z.max (map mention_count docs) (-1))%Z
  ∧ (doc_cluster_max d ≤ fold_left Z.max (map doc_cluster_max docs) (-1))%Z
  ∧ (cluster_count d ≤ fold_left Z.max (map cluster_count docs) (-1))%Z.
Proof.
  intros Hd. repeat split; apply fold_max_elem_le;
    apply list_elem_of_In, in_map, list_elem_of_In, Hd.
Qed.

Lemma parse_examples_bounded (file : list string) (exs : list example)
    (m1 m2 m3 : Z) :
  _parse_jsonlines load_record file = inr (exs, m1, m2, m3) →
  len exs = len file
  ∧ Forall (λ ex : example,
              (len ex.2 ≤ m3)%Z
              ∧ Forall (λ cluster, (len cluster ≤ m2)%Z) ex.2
              ∧ (len (flatten_list_of_lists ex.2) ≤ m1)%Z) exs.
Proof.
  intros (docs & _ & Hlen & -> & -> & -> & ->)%parse_jsonlines_inr.
  split; [unfold len; rewrite length_map; lia|].
  apply Forall_forall. intros ex. rewrite list_elem_of_In, in_map_iff.
  intros (d & <- & Hd%list_elem_of_In).
  destruct (maxima_bound_doc docs d Hd) as (H1 & H2 & H3).
  unfold example_of. cbn [snd]. split; [exact H3|]. split.
  - apply Forall_forall. intros c Hc.
    destruct (doc_cluster_max_spec d) as (_ & Hub & _).
    specialize (Hub c Hc). lia.
  - unfold flatten_list_of_lists. rewrite len_concat_sum. exact H1.
Qed.

(** X11. The maxima the parser returns bound every parsed example, whether
    it is later filtered or not: it has at most [max_num_clusters] clusters,
    each of its clusters has at most [max_cluster_size] mentions, and it has
    at most [max_mention_num] mentions in all. The parser returns one
    example per line. *)
Theorem maxima_bound_every_example (file : list string) (exs : list example)
    (m1 m2 m3 : Z) :
  _parse_jsonlines load_record file = inr (exs, m1, m2, m3) →
  len exs = len file
  ∧ Forall (λ ex : example,
              (len ex.2 ≤ m3)%Z
              ∧ Forall (λ cluster, (len cluster ≤ m2)%Z) ex.2
              ∧ (len (flatten_list_of_lists ex.2) ≤ m1)%Z) exs.
Proof. apply parse_examples_bounded. Qed.

(** X12. The value -1 of a maximum means an empty corpus and nothing else:
    when the parser returns, each of the three maxima is -1 if the file has
    no line and is at least 0 otherwise. *)
Theorem empty_corpus_is_detectable (file : list string) (exs : list example)
    (m1 m2 m3 : Z) :
  _parse_jsonlines load_record file = inr (exs, m1, m2, m3) →
  (file = [] ↔ m1 = (-1)%Z)
  ∧ (file = [] ↔ m2 = (-1)%Z)
  ∧ (file = [] ↔ m3 = (-1)%Z)
  ∧ (file ≠ [] → (0 ≤ m1)%Z ∧ (0 ≤ m2)%Z ∧ (0 ≤ m3)%Z).
Proof.
  intros (docs & _ & Hlen & _ & -> & -> & ->)%parse_jsonlines_inr.
  destruct file as [|line file].
  - destruct docs; [|done]. simpl. repeat split; done.
  - destruct docs as [|d docs]; [done|].
    assert (H1 : (0 ≤ fold_left Z.max (map mention_count (d :: docs)) (-1))%Z).
    { transitivity (mention_count d); [apply mention_count_nonneg|].
      apply fold_max_elem_le. simpl. apply elem_of_cons. by left. }
    assert (H2 : (0 ≤ fold_left Z.max (map doc_cluster_max (d :: docs)) (-1))%Z).
    { transitivity (doc_cluster_max d); [apply doc_cluster_max_nonneg|].
      apply fold_max_elem_le. simpl. apply elem_of_cons. by left. }
    assert (H3 : (0 ≤ fold_left Z.max (map cluster_count (d :: docs)) (-1))%Z).
    { transitivity (cluster_count d); [apply cluster_count_nonneg|].
      apply fold_max_elem_le. simpl. apply elem_of_cons. by left. }
    repeat split; try done; intros; lia.
Qed.

(** X13. The three maxima are related: the largest cluster is not larger
    than the largest mention total of a document, which is not larger than
    the largest cluster count times the largest cluster size:
    [max_cluster_size <= max_mention_num <= max_num_clusters * max_cluster_size]. *)
Theorem maxima_are_related (file : list string) (exs : list example)
    (m1 m2 m3 : Z) :
  _parse_jsonlines load_record file = inr (exs, m1, m2, m3) →
  (m2 ≤ m1)%Z ∧ (m1 ≤ m3 * m2)%Z.
Proof.
  intros (docs & _ & _ & _ & -> & -> & ->)%parse_jsonlines_inr.
  destruct (fold_max_in_range (map doc_cluster_max docs)
              (Forall_map_nonneg _ _ doc_cluster_max_nonneg))
    as [[Hnil ->]|(_ & Hin2 & _)].
  { destruct docs; [|done]. simpl. lia. }
  destruct (fold_max_in_range (map mention_count docs)
              (Forall_map_nonneg _ _ mention_count_nonneg))
    as [[Hnil _]|(_ & Hin1 & _)].
  { destruct docs; [|done]. by apply elem_of_nil in Hin2. }
  apply list_elem_of_In, in_map_iff in Hin2 as (d2 & Hd2 & Hin2%list_elem_of_In).
  apply list_elem_of_In, in_map_iff in Hin1 as (d1 & Hd1 & Hin1%list_elem_of_In).
  destruct (maxima_bound_doc docs d2 Hin2) as (Ha & _ & _).
  destruct (maxima_bound_doc docs d1 Hin1) as (_ & Hb & Hc).
  destruct (doc_cluster_max_spec d2) as (_ & _ & Hle).
  pose proof (mention_count_le d1) as Hprod.
  pose proof (doc_cluster_max_nonneg d1). pose proof (cluster_count_nonneg d1).
  split; [lia|]. rewrite <- Hd1. nia.
Qed.

Lemma parse_fold_shift (file : list string) (exs : list example) (a b c : Z) :
  (-1 ≤ a)%Z → (-1 ≤ b)%Z → (-1 ≤ c)%Z →
  result_fold (parse_line load_record) file (exs, a, b, c)
  = do (exs', a', b', c') <- _parse_jsonlines load_record file in
    ret (exs ++ exs', Z.max a a', Z.max b b', Z.max c c').
Proof.
  intros Ha Hb Hc.
  destruct (parse_jsonlines_cases file) as [(e & He & ->)|(docs & Hdocs & ->)].
  - by apply parse_fold_inl.
  - rewrite (parse_fold_explicit file docs) by done. cbn [bind ret].
    by rewrite (fold_max_init _ a), (fold_max_init _ b), (fold_max_init _ c).
Qed.

(** X14. Parsing the concatenation of two files is parsing each and
    combining: the examples are appended and each maximum is the larger of
    the two maxima; an exception of the first file comes before one of the
    second. *)
Theorem parse_app (file1 file2 : list string) :
  _parse_jsonlines load_record (file1 ++ file2)
  = do (exs1, a1, b1, c1) <- _parse_jsonlines load_record file1 in
    do (exs2, a2, b2, c2) <- _parse_jsonlines load_record file2 in
    ret (exs1 ++ exs2, Z.max a1 a2, Z.max b1 b2, Z.max c1 c2).
Proof.
  unfold _parse_jsonlines at 1. rewrite result_fold_app.
  fold (_parse_jsonlines load_record file1).
  destruct (_parse_jsonlines load_record file1) as [e|[[[exs1 a1] b1] c1]] eqn:H1;
    [done|].
  cbn [bind].
  apply parse_jsonlines_inr in H1 as (docs & _ & _ & _ & -> & -> & ->).
  apply parse_fold_shift; apply fold_max_ge_init.
Qed.

End Corpus.

(** ** Properties of a dataset as a whole *)

Section WholeDataset.

Variable tokenize : string → list string.
Variable load_record : string → result record.
Variable NULL_ID_FOR_COREF : Z.

(** The two steps of [__init__] when it returns. *)
Lemma init_inr (file : list string) (max_seq_length : Z) (self : CorefDataset) :
  __init__ tokenize load_record file max_seq_length = inr self →
  ∃ exs,
    _parse_jsonlines load_record file
    = inr (exs, max_mention_num self, max_cluster_size self, max_num_clusters self)
    ∧ _tokenize tokenize max_seq_length exs
      = inr (examples self, lengths self, num_examples_filtered self).
Proof.
  unfold __init__.
  destruct (_parse_jsonlines load_record file) as [e|[[[exs m1] m2] m3]]; [done|].
  cbn [bind].
  destruct (_tokenize tokenize max_seq_length exs) as [e|[[outs lens] n]] eqn:Htok;
    [done|].
  cbn [bind ret]. intros [= <-]. by exists exs.
Qed.

Lemma aligned_structure (ex : example) (o : tokenized_example) :
  aligned tokenize ex = inr o → map length (clusters o.2) = map length ex.2.
Proof.
  destruct ex as [[doc_key words] cls]. unfold aligned.
  destruct (remap_clusters _ cls) as [e|new_clusters] eqn:Hnew; [done|].
  cbn [bind ret]. intros [= <-].
  exact (remap_clusters_structure _ _ _ Hnew).
Qed.

Lemma Forall2_elem_of_r {A B : Type} (R : A → B → Prop) (l : list A) (k : list B)
    (y : B) :
  Forall2 R l k → y ∈ k → ∃ x, x ∈ l ∧ R x y.
Proof.
  induction 1 as [|x y' l k Hxy _ IH]; intros Hy; [by apply elem_of_nil in Hy|].
  apply elem_of_cons in Hy as [->|Hy].
  - exists x. split; [apply elem_of_cons; by left|done].
  - destruct (IH Hy) as (x' & Hx' & HR). exists x'.
    split; [apply elem_of_cons; by right|done].
Qed.

Lemma same_lengths_bounded {A B : Type} (l : list (list A)) (k : list (list B))
    (m : Z) :
  map length l = map length k →
  Forall (λ c, (len c ≤ m)%Z) k → Forall (λ c, (len c ≤ m)%Z) l.
Proof.
  revert k. induction l as [|c l IH]; intros [|c' k] Hlen Hk; try done.
  injection Hlen as Hc Hl. apply Forall_cons in Hk as [Hc' Hk].
  constructor; [unfold len in *; lia|by eapply IH].
Qed.

(** X15. Every tokenized example of a dataset built by [__init__] is padded
    by [pad_clusters] to exactly [max_num_clusters] clusters of exactly
    [max_cluster_size] mention pairs: the maxima computed by the parser are
    large enough for every document the aligner keeps. *)
Theorem dataset_examples_pad_to_shape (file : list string) (max_seq_length : Z)
    (self : CorefDataset) :
  __init__ tokenize load_record file max_seq_length = inr self →
  Forall (λ o : tokenized_example,
            len (pad_clusters NULL_ID_FOR_COREF self (clusters o.2))
            = max_num_clusters self
            ∧ Forall (λ c, len c = max_cluster_size self)
                (pad_clusters NULL_ID_FOR_COREF self (clusters o.2)))
    (examples self).
Proof.
  intros Hself.
  destruct (init_inr _ _ _ Hself) as (exs & Hparse & Htok).
  apply parse_examples_bounded in Hparse as [_ Hbound].
  apply tokenize_inr in Htok as (Hkept & _ & _).
  apply Forall_forall. intros o Ho.
  destruct (Forall2_elem_of_r _ _ _ _ Hkept Ho) as (ex & Hex & Hal).
  apply list_elem_of_In, filter_In in Hex as [Hex%list_elem_of_In _].
  rewrite Forall_forall in Hbound.
  destruct (Hbound ex Hex) as (Hcount & Hsizes & _).
  pose proof (aligned_structure ex o Hal) as Hshape.
  assert (Hlen : len (clusters o.2) = len ex.2).
  { unfold len. f_equal.
    by rewrite <- (length_map length (clusters o.2)), Hshape, length_map. }
  apply pad_clusters_shape.
  - destruct (init_maxima tokenize load_record _ _ _ Hself) as [Hempty|Hsize];
      [|done].
    pose proof (len_nonneg ex.2). lia.
  - lia.
  - by eapply same_lengths_bounded.
Qed.

Lemma list_getitem_is_Some {A : Type} (l : list A) (i : Z) :
  is_Some (list_getitem l i) ↔ (- len l ≤ i < len l)%Z.
Proof.
  unfold list_getitem, len. repeat case_decide.
  - rewrite lookup_lt_is_Some. lia.
  - rewrite lookup_lt_is_Some. lia.
  - split; [by intros [? ?]|lia].
Qed.

Lemma list_getitem_nonneg {A : Type} (l : list A) (i : Z) (x : A) :
  (0 ≤ i)%Z → list_getitem l i = Some x ↔ l !! Z.to_nat i = Some x.
Proof.
  intros Hi. unfold list_getitem, len. repeat case_decide; try lia; try done.
  split; [done|]. intros Hx%lookup_lt_Some. lia.
Qed.

Lemma list_getitem_negative {A : Type} (l : list A) (i : Z) :
  (0 ≤ i < len l)%Z → list_getitem l (i - len l) = list_getitem l i.
Proof.
  intros Hi. unfold list_getitem. repeat case_decide; try lia.
  do 2 f_equal. lia.
Qed.

(** X16. In a dataset built by [__init__], [__len__] is the number of
    lines of the corpus less the number of filtered documents, and it is the
    length of [lengths]. [__getitem__] returns an example exactly for the
    indices from [-__len__] to [__len__ - 1]; the index [item - __len__]
    returns the same example as [item], and [lengths[item]] is the number
    of subtokens of the example at [item]. *)
Theorem dataset_indexing (file : list string) (max_seq_length : Z)
    (self : CorefDataset) :
  __init__ tokenize load_record file max_seq_length = inr self →
  __len__ self = len (lengths self)
  ∧ (__len__ self + num_examples_filtered self = len file)%Z
  ∧ (∀ item : Z,
       is_Some (__getitem__ self item)
       ↔ (- __len__ self ≤ item < __len__ self)%Z)
  ∧ (∀ (item : Z) (o : tokenized_example),
       (0 ≤ item)%Z → __getitem__ self item = Some o →
       __getitem__ self (item - __len__ self) = Some o
       ∧ list_getitem (lengths self) item = Some (len (token_ids o.2))).
Proof.
  intros Hself.
  destruct (init_inr _ _ _ Hself) as (exs & Hparse & Htok).
  apply parse_examples_bounded in Hparse as [Hlines _].
  apply tokenize_inr in Htok as (Hkept & Hlens & Hn).
  apply Forall2_length_eq in Hkept.
  pose proof (length_filter_partition (exceeds tokenize max_seq_length) exs) as Hpart.
  unfold __len__, __getitem__.
  split; [rewrite Hlens; unfold len; by rewrite length_map|].
  split; [rewrite Hn; unfold len in *; lia|].
  split; [intros item; apply list_getitem_is_Some|].
  intros item o Hitem Ho.
  assert (Hrange : (0 ≤ item < len (examples self))%Z).
  { pose proof (proj1 (list_getitem_is_Some _ _) (mk_is_Some _ _ Ho)). lia. }
  split; [by rewrite list_getitem_negative|].
  apply list_getitem_nonneg in Ho; [|done].
  apply list_getitem_nonneg; [done|].
  rewrite Hlens, lookup_map. by rewrite Ho.
Qed.

(** *** Padding *)

Lemma list_mul_single_replicate {A : Type} (x : A) (n : Z) :
  list_mul [x] n = replicate (Z.to_nat n) x.
Proof.
  unfold list_mul. induction (Z.to_nat n) as [|k IH]; [done|].
  simpl. by rewrite IH.
Qed.

(** X17. Every mention of the padded clusters is the mention of the input
    at the same cluster and position, or else the pair
    [(NULL_ID_FOR_COREF, NULL_ID_FOR_COREF)]. *)
Theorem padding_is_sentinel (self : CorefDataset) (cls : list (list (Z * Z)))
    (i j : nat) (padded : list (Z * Z)) (m : Z * Z) :
  pad_clusters NULL_ID_FOR_COREF self cls !! i = Some padded →
  padded !! j = Some m →
  (∃ cluster, cls !! i = Some cluster ∧ cluster !! j = Some m)
  ∨ m = (NULL_ID_FOR_COREF, NULL_ID_FOR_COREF).
Proof.
  unfold pad_clusters, pad_clusters_inside, pad_clusters_outside.
  rewrite lookup_map, !list_mul_single_replicate.
  destruct ((cls ++ _) !! i) as [c|] eqn:Hc; [|done].
  cbn [fmap option_fmap option_map]. intros [= <-].
  rewrite list_mul_single_replicate.
  intros [Hj|[_ Hj]]%lookup_app_Some.
  - apply lookup_app_Some in Hc as [Hc|[_ Hc]].
    + left. by exists c.
    + apply lookup_replicate in Hc as [-> _]. by rewrite lookup_nil in Hj.
  - right. by apply lookup_replicate in Hj as [-> _].
Qed.

(** X18. Padding is idempotent: padding clusters that are already padded
    changes nothing. *)
Theorem pad_clusters_idempotent (self : CorefDataset) (cls : list (list (Z * Z))) :
  pad_clusters NULL_ID_FOR_COREF self
    (pad_clusters NULL_ID_FOR_COREF self cls)
  = pad_clusters NULL_ID_FOR_COREF self cls.
Proof.
  set (padded := pad_clusters NULL_ID_FOR_COREF self cls).
  assert (Hlen : (max_num_clusters self ≤ len padded)%Z).
  { unfold padded. rewrite len_pad_clusters. lia. }
  assert (Hall : Forall (λ c, (max_cluster_size self ≤ len c)%Z) padded).
  { unfold padded, pad_clusters, pad_clusters_inside.
    apply Forall_forall. intros c. rewrite list_elem_of_In, in_map_iff.
    intros (c0 & <- & _). rewrite len_pad_inside. lia. }
  unfold pad_clusters at 1. unfold pad_clusters_outside.
  rewrite list_mul_nonpos, app_nil_r by lia.
  unfold pad_clusters_inside.
  rewrite <- (map_id padded) at 2. apply map_ext_in. intros c Hc.
  rewrite Forall_forall in Hall. apply list_elem_of_In, Hall in Hc.
  rewrite list_mul_nonpos by lia. apply app_nil_r.
Qed.

End WholeDataset.

(** ** Properties of the dataset cache *)

Section CacheProperties.

Variable FS : Type.
Variable path_exists : FS → string → bool.
Variable read_lines : FS → string → Cache.failure + list string.
Variable pickle_load : FS → string → Cache.failure + CorefDataset.
Variable pickle_dump : FS → string → CorefDataset → FS * option Cache.failure.

(** A call that finds its cache file loads it and does nothing else. *)
Lemma get_dataset_hit (tokenize : string → list string)
    (load_record : string → result record)
    (a : Cache.args) (evaluate : bool) (fs : FS) :
  path_exists fs (Cache.cache_path a evaluate) = true →
  Cache.get_dataset tokenize load_record path_exists read_lines pickle_load
    pickle_dump a evaluate fs
  = (pickle_load fs (Cache.cache_path a evaluate), fs).
Proof.
  unfold Cache.get_dataset, Cache.cache_path. intros Hcache.
  destruct evaluate; cbn [andb negb]; by rewrite Hcache.
Qed.

(** A call that does not find its cache file builds the dataset from the
    corpus and dumps it. *)
Lemma get_dataset_miss (tokenize : string → list string)
    (load_record : string → result record)
    (a : Cache.args) (evaluate : bool) (fs : FS) :
  path_exists fs (Cache.cache_path a evaluate) = false →
  Cache.get_dataset tokenize load_record path_exists read_lines pickle_load
    pickle_dump a evaluate fs
  = match read_lines fs (Cache.corpus_path a evaluate) with
    | inl e => (inl e, fs)
    | inr file =>
        match __init__ tokenize load_record file (Cache.max_seq_length a) with
        | inl e => (inl (Cache.Raised e), fs)
        | inr coref_dataset =>
            let '(fs', failed) :=
              pickle_dump fs (Cache.cache_path a evaluate) coref_dataset in
            match failed with
            | Some e => (inl e, fs')
            | None => (inr coref_dataset, fs')
            end
        end
    end.
Proof.
  unfold Cache.get_dataset, Cache.cache_path, Cache.corpus_path. intros Hcache.
  destruct evaluate; cbn [andb negb]; by rewrite Hcache.
Qed.

(** X19. If [pickle] loads back what it dumped, a call of [get_dataset]
    that returns a dataset is repeated by any later call on the same cache
    path: the later call returns the same dataset and leaves the file
    system as it is, whatever tokenizer, corpus path and [max_seq_length]
    it is given. *)
Theorem second_call_reads_cache
    (tokenize tokenize' : string → list string)
    (load_record load_record' : string → result record)
    (a a' : Cache.args) (evaluate : bool) (fs fs' : FS) (ds : CorefDataset) :
  Cache.dump_then_load path_exists pickle_load pickle_dump →
  Cache.get_dataset tokenize load_record path_exists read_lines pickle_load
    pickle_dump a evaluate fs = (inr ds, fs') →
  Cache.cache_path a' evaluate = Cache.cache_path a evaluate →
  Cache.get_dataset tokenize' load_record' path_exists read_lines pickle_load
    pickle_dump a' evaluate fs' = (inr ds, fs').
Proof.
  intros Hlaw Hcall Hpath.
  assert (Hcached : path_exists fs' (Cache.cache_path a evaluate) = true
                    ∧ pickle_load fs' (Cache.cache_path a evaluate) = inr ds).
  { destruct (path_exists fs (Cache.cache_path a evaluate)) eqn:Hcache.
    - rewrite get_dataset_hit in Hcall by done.
      injection Hcall as Hload <-. by split.
    - rewrite get_dataset_miss in Hcall by done.
      destruct (read_lines fs _) as [e|file]; [done|].
      destruct (__init__ _ _ file _) as [e|built]; [done|].
      destruct (pickle_dump fs _ built) as [fs1 [e|]] eqn:Hdump; [done|].
      injection Hcall as -> ->. by apply (Hlaw fs _ _ _ Hdump). }
  destruct Hcached as [Hexists Hload].
  rewrite get_dataset_hit by (by rewrite Hpath).
  by rewrite Hpath, Hload.
Qed.


End CacheProperties.

(** ** The further properties on concrete inputs *)

Lemma spans_tile_witness :
  let words := ["Hello"; "guys"; ""; "."] in
  let st := scan_words Sample.plural_split words in
  words ≠ []
  ∧ 2 < length words
  ∧ length words = 4
  ∧ word_idx_to_start_token_idx st !! 0%Z = Some 1%Z
  ∧ (∃ last, word_idx_to_end_token_idx st !! 1%Z = Some last
             ∧ word_idx_to_start_token_idx st !! 2%Z = Some (last + 1)%Z)
  ∧ word_idx_to_end_token_idx st !! 3%Z = Some 4%Z.
Proof.
  intros words st.
  destruct (spans_tile Sample.plural_split words) as (Hfirst & Hnext & Hlast).
  split; [done|]. split; [simpl; lia|]. split; [reflexivity|].
  split; [exact (Hfirst ltac:(done))|].
  split; [exact (Hnext 1 ltac:(simpl; lia))|].
  exact (Hlast 3 eq_refl).
Defined.

Lemma mention_span_covers_words_witness :
  let words := ["Hello"; "guys"; ""; "."] in
  let st := scan_words Sample.plural_split words in
  (0 ≤ 1 < 3)%Z
  ∧ (3 ≤ len words)%Z
  ∧ ∃ first last : Z,
      remap_mention st [1; 3]%Z = inr (first, last)
      ∧ (1 ≤ first ≤ last + 1)%Z
      ∧ (last ≤ len (scan_token_ids st))%Z
      ∧ take (Z.to_nat (last - first + 1))
          (drop (Z.to_nat (first - 1)) (scan_token_ids st))
        = concat (map Sample.plural_split ["guys"; ""]).
Proof.
  intros words st.
  assert (H1 : (0 ≤ 1 < 3)%Z) by lia.
  assert (H2 : (3 ≤ len words)%Z) by (unfold len; simpl; lia).
  split; [exact H1|]. split; [exact H2|].
  exact (mention_span_covers_words Sample.plural_split words 1 3 H1 H2).
Defined.

Lemma reverse_map_consistent_witness :
  let words := ["Hello"; "guys"; ""; "."] in
  let st := scan_words Sample.plural_split words in
  1 ≤ 3 ≤ length (scan_token_ids st)
  ∧ length (end_token_idx_to_word_idx st) = 5
  ∧ ∃ (idx : nat) (first last : Z),
      idx < length words
      ∧ end_token_idx_to_word_idx st !! 3 = Some (Z.of_nat idx)
      ∧ word_idx_to_start_token_idx st !! Z.of_nat idx = Some first
      ∧ word_idx_to_end_token_idx st !! Z.of_nat idx = Some last
      ∧ (first ≤ 3 ≤ last)%Z.
Proof.
  intros words st.
  destruct (reverse_map_consistent Sample.plural_split words)
    as (Hlen & _ & Hcover & _).
  assert (Hp : 1 ≤ 3 ≤ length (scan_token_ids st)) by (simpl; lia).
  split; [exact Hp|]. split; [exact Hlen|]. exact (Hcover 3 Hp).
Defined.

Lemma tokenize_accounts_for_every_document_witness :
  let exs : list example :=
    [("nw/0", Sample.words, [[[0; 2]; [7; 8]]]%Z); ("nw/1", ["Hello"; "."], [])] in
  ∃ outs lens n,
    _tokenize Sample.whole_word 5 exs = inr (outs, lens, n)
    ∧ len lens = len outs ∧ (len outs + n = len exs)%Z ∧ (0 ≤ n)%Z.
Proof.
  intros exs.
  destruct (_tokenize Sample.whole_word 5 exs) as [e|[[outs lens] n]] eqn:Hrun;
    [vm_compute in Hrun; discriminate Hrun|].
  exists outs, lens, n. split; [reflexivity|].
  exact (tokenize_accounts_for_every_document Sample.whole_word 5 exs outs lens n
           Hrun).
Defined.

Lemma tokenized_examples_fit_witness :
  let exs : list example :=
    [("nw/0", Sample.words, [[[0; 2]; [7; 8]]]%Z); ("nw/1", ["Hello"; "."], [])] in
  (0 < 5)%Z
  ∧ ∃ outs lens n,
      _tokenize Sample.whole_word 5 exs = inr (outs, lens, n)
      ∧ Forall (λ o : tokenized_example, (len (token_ids o.2) ≤ 5)%Z) outs
      ∧ Forall (λ l, (0 ≤ l ≤ 5)%Z) lens.
Proof.
  intros exs. split; [lia|].
  destruct (_tokenize Sample.whole_word 5 exs) as [e|[[outs lens] n]] eqn:Hrun;
    [vm_compute in Hrun; discriminate Hrun|].
  exists outs, lens, n. split; [reflexivity|].
  exact (tokenized_examples_fit Sample.whole_word 5 exs outs lens n
           ltac:(lia) Hrun).
Defined.

Lemma mentions_of_wrong_arity_raise_witness :
  let cls := [[[0; 0; 2]; [1; 0; 1]]]%Z in
  too_long (-1) (scan_words Sample.whole_word Sample.words) = false
  ∧ Forall (Forall (λ m, ¬ is_pair m)) cls
  ∧ Exists (λ cluster, cluster ≠ []) cls
  ∧ tokenize_example Sample.whole_word (-1) ([], [], 0%Z)
      ("nw/0", Sample.words, cls)
    = inl ValueError.
Proof.
  intros cls.
  assert (H1 : too_long (-1) (scan_words Sample.whole_word Sample.words) = false)
    by reflexivity.
  assert (H2 : Forall (Forall (λ m, ¬ is_pair m)) cls)
    by (repeat constructor; discriminate).
  assert (H3 : Exists (λ cluster : list mention, cluster ≠ []) cls)
    by (constructor; discriminate).
  split; [exact H1|]. split; [exact H2|]. split; [exact H3|].
  exact (mentions_of_wrong_arity_raise Sample.whole_word (-1) ([], [], 0%Z)
           "nw/0" Sample.words cls H1 H2 H3).
Defined.

Lemma remapped_clusters_keep_shape_witness :
  let ex : example := ("nw/0", Sample.words, [[[0; 2]; [7; 8]]]%Z) in
  ∃ o,
    aligned Sample.whole_word ex = inr o
    ∧ map length (clusters o.2) = [2]
    ∧ Forall (Forall (λ m : Z * Z,
                (1 ≤ m.1 ≤ len (token_ids o.2) + 1)%Z
                ∧ (0 ≤ m.2 ≤ len (token_ids o.2))%Z
                ∧ ((0 < 1)%Z → m ≠ (0, 0)%Z)))
        (clusters o.2).
Proof.
  intros ex.
  destruct (aligned Sample.whole_word ex) as [e|o] eqn:Ho;
    [vm_compute in Ho; discriminate Ho|].
  exists o. split; [reflexivity|].
  destruct (remapped_clusters_keep_shape Sample.whole_word ex o 0 Ho)
    as (_ & Hshape & Hbounds).
  split; [exact Hshape|exact Hbounds].
Defined.

Lemma maxima_bound_every_example_witness :
  let file := ["line 0"; "line 1"; "line 2"] in
  ∃ exs,
    _parse_jsonlines Sample.load file = inr (exs, 3%Z, 2%Z, 2%Z)
    ∧ len exs = len file
    ∧ Forall (λ ex : example,
                (len ex.2 ≤ 2)%Z
                ∧ Forall (λ cluster, (len cluster ≤ 2)%Z) ex.2
                ∧ (len (flatten_list_of_lists ex.2) ≤ 3)%Z) exs.
Proof.
  intros file. eexists. split; [reflexivity|].
  exact (maxima_bound_every_example Sample.load file _ 3 2 2 eq_refl).
Defined.

Lemma empty_corpus_is_detectable_witness :
  _parse_jsonlines Sample.load [] = inr ([], (-1)%Z, (-1)%Z, (-1)%Z)
  ∧ (@nil string = [] ↔ (-1)%Z = (-1)%Z)
  ∧ ∃ exs,
      _parse_jsonlines Sample.load ["line 1"] = inr (exs, 0%Z, 0%Z, 0%Z)
      ∧ (["line 1"] ≠ [] → (0 ≤ 0)%Z ∧ (0 ≤ 0)%Z ∧ (0 ≤ 0)%Z).
Proof.
  split; [reflexivity|].
  split; [exact (proj1 (empty_corpus_is_detectable Sample.load [] [] _ _ _ eq_refl))|].
  eexists. split; [reflexivity|].
  exact (proj2 (proj2 (proj2
           (empty_corpus_is_detectable Sample.load ["line 1"] _ 0 0 0 eq_refl)))).
Defined.

Lemma maxima_are_related_witness :
  ∃ exs,
    _parse_jsonlines Sample.load ["line 0"; "line 1"; "line 2"]
    = inr (exs, 3%Z, 2%Z, 2%Z)
    ∧ (2 ≤ 3)%Z ∧ (3 ≤ 2 * 2)%Z.
Proof.
  eexists. split; [reflexivity|].
  exact (maxima_are_related Sample.load ["line 0"; "line 1"; "line 2"] _ 3 2 2
           eq_refl).
Defined.

Lemma dataset_examples_pad_to_shape_witness :
  __init__ Sample.plural_split Sample.load ["line 0"; "line 1"] (-1)
  = inr Sample.built
  ∧ Forall (λ o : tokenized_example,
              len (pad_clusters 0 Sample.built (clusters o.2))
              = max_num_clusters Sample.built
              ∧ Forall (λ c, len c = max_cluster_size Sample.built)
                  (pad_clusters 0 Sample.built (clusters o.2)))
      (examples Sample.built).
Proof.
  assert (Hself : __init__ Sample.plural_split Sample.load ["line 0"; "line 1"] (-1)
                  = inr Sample.built) by (vm_compute; reflexivity).
  split; [exact Hself|].
  exact (dataset_examples_pad_to_shape Sample.plural_split Sample.load 0 _ _ _
           Hself).
Defined.

Lemma dataset_indexing_witness :
  __init__ Sample.plural_split Sample.load ["line 0"; "line 1"] (-1)
  = inr Sample.built
  ∧ __len__ Sample.built = 2%Z
  ∧ (0 ≤ 1)%Z
  ∧ ∃ o, __getitem__ Sample.built 1 = Some o
         ∧ __getitem__ Sample.built (1 - __len__ Sample.built) = Some o
         ∧ list_getitem (lengths Sample.built) 1 = Some (len (token_ids o.2)).
Proof.
  assert (Hself : __init__ Sample.plural_split Sample.load ["line 0"; "line 1"] (-1)
                  = inr Sample.built) by (vm_compute; reflexivity).
  destruct (dataset_indexing Sample.plural_split Sample.load _ _ _ Hself)
    as (_ & _ & _ & Hitem).
  split; [exact Hself|]. split; [reflexivity|]. split; [lia|].
  eexists. split; [reflexivity|].
  exact (Hitem 1%Z _ ltac:(lia) eq_refl).
Defined.

Lemma padding_is_sentinel_witness :
  pad_clusters 0 Sample.built [[(1, 2)]]%Z !! 0 = Some [(1, 2); (0, 0)]%Z
  ∧ [(1, 2); (0, 0)]%Z !! 1 = Some (0, 0)%Z
  ∧ ((∃ cluster, [[(1, 2)]]%Z !! 0 = Some cluster ∧ cluster !! 1 = Some (0, 0)%Z)
     ∨ (0, 0)%Z = (0, 0)%Z).
Proof.
  split; [reflexivity|]. split; [reflexivity|].
  exact (padding_is_sentinel 0 Sample.built [[(1, 2)]]%Z 0 1 _ _ eq_refl eq_refl).
Defined.

Lemma tokenize_raises_first_failure_witness :
  let exs : list example :=
    [("nw/1", ["Hello"; "."], []); ("nw/2", ["Hello"; "guys"; "."], [[[2; 7]]]%Z)] in
  exceeds Sample.whole_word (-1) ("nw/2", ["Hello"; "guys"; "."], [[[2; 7]]]%Z)
  = false
  ∧ aligned Sample.whole_word ("nw/2", ["Hello"; "guys"; "."], [[[2; 7]]]%Z)
    = inl (KeyError 6)
  ∧ _tokenize Sample.whole_word (-1) exs = inl (KeyError 6).
Proof.
  intros exs. split; [reflexivity|]. split; [reflexivity|].
  apply (proj2 (tokenize_raises_first_failure Sample.whole_word (-1) exs
                  (KeyError 6))).
  exists [("nw/1", ["Hello"; "."], [])],
         ("nw/2", ["Hello"; "guys"; "."], [[[2; 7]]]%Z), [].
  split; [reflexivity|]. split; [|split; reflexivity].
  constructor; [|constructor]. right. eexists. reflexivity.
Defined.

Lemma parse_raises_first_failure_witness :
  Sample.load "line 9" = inl (DecodeError "line 9")
  ∧ _parse_jsonlines Sample.load ["line 0"; "line 9"; "line 1"]
    = inl (DecodeError "line 9").
Proof.
  split; [reflexivity|].
  apply (proj2 (parse_raises_first_failure Sample.load
                  ["line 0"; "line 9"; "line 1"] (DecodeError "line 9"))).
  exists ["line 0"], "line 9", ["line 1"].
  split; [reflexivity|]. split; [|reflexivity].
  constructor; [|constructor]. eexists. reflexivity.
Defined.

Lemma second_call_reads_cache_witness :
  let fs' : gmap string MemoryFS.content :=
    <["train.cache" := inr Sample.built]> MemoryFS.disk in
  let a' : Cache.args :=
    {| Cache.predict_file := "dev.jsonlines";
       Cache.predict_file_cache := "dev.cache";
       Cache.train_file := "other.jsonlines";
       Cache.train_file_cache := "train.cache";
       Cache.max_seq_length := 5 |} in
  Cache.dump_then_load MemoryFS.path_exists MemoryFS.pickle_load
    MemoryFS.pickle_dump
  ∧ Cache.get_dataset Sample.plural_split Sample.load MemoryFS.path_exists
      MemoryFS.read_lines MemoryFS.pickle_load MemoryFS.pickle_dump
      MemoryFS.args false MemoryFS.disk
    = (inr Sample.built, fs')
  ∧ Cache.cache_path a' false = Cache.cache_path MemoryFS.args false
  ∧ Cache.get_dataset Sample.whole_word Sample.load MemoryFS.path_exists
      MemoryFS.read_lines MemoryFS.pickle_load MemoryFS.pickle_dump
      a' false fs'
    = (inr Sample.built, fs').
Proof.
  intros fs' a'.
  assert (Hlaw : Cache.dump_then_load MemoryFS.path_exists MemoryFS.pickle_load
                   MemoryFS.pickle_dump).
  { intros fs path obj fs1 [= <-].
    unfold MemoryFS.path_exists, MemoryFS.pickle_load. split.
    - apply bool_decide_eq_true. rewrite lookup_insert_eq. by eexists.
    - by rewrite lookup_insert_eq. }
  assert (Hcall : Cache.get_dataset Sample.plural_split Sample.load
                    MemoryFS.path_exists MemoryFS.read_lines MemoryFS.pickle_load
                    MemoryFS.pickle_dump MemoryFS.args false MemoryFS.disk
                  = (inr Sample.built, fs')) by (vm_compute; reflexivity).
  split; [exact Hlaw|]. split; [exact Hcall|]. split; [reflexivity|].
  exact (second_call_reads_cache _ MemoryFS.path_exists MemoryFS.read_lines
           MemoryFS.pickle_load MemoryFS.pickle_dump
           Sample.plural_split Sample.whole_word Sample.load Sample.load
           MemoryFS.args a' false MemoryFS.disk fs' Sample.built
           Hlaw Hcall eq_refl).
Defined.

